(** * micrograd/engine.py: the scalar reverse-mode autodiff engine

    A shallow embedding of the class [Value] of [micrograd/engine.py]:
    the node record, the arithmetic operations and activations that grow
    the graph, the depth-first topological sort [build_topo] and the
    gradient sweep of [backward].

    Python objects live in a heap and are referred to by identity; a
    [Value] is one heap cell, and its identity is its allocation index.
    Numbers are Python floats, that is IEEE binary64, taken here as Rocq's
    primitive floats.  The int literals of the source ([0], [1], [-1])
    stand for the floats of the same value, which is what Python's mixed
    arithmetic turns them into.  The numpy based methods [exp] and [tanh]
    are not part of this development. *)

From stdpp Require Import base option list gmap strings.
From Stdlib Require Import ZArith Floats.

Local Open Scope float_scope.

(** ** Outcomes of a Python computation *)

Inductive exn : Set :=
| AssertionError
| ZeroDivisionError
| OverflowError.

(** What the embedding does not cover: a power that leaves the real
    numbers, and a traversal deeper than the heap is large (which no heap
    built by the operations has, see [build_topo_total]). *)
Inductive limit : Set :=
| ComplexPower
| RecursionDepth.

Inductive result (A : Type) : Type :=
| Ok (a : A)
| Raise (e : exn)
| Beyond (l : limit).
Arguments Ok {A} a.
Arguments Raise {A} e.
Arguments Beyond {A} l.

(** ** The node record *)

Abbreviation ident := nat.

(** A number as [isinstance(other, (int, float))] sees it. *)
Inductive number : Set :=
| NInt (z : Z)
| NFloat (x : float).

(** An arbitrary Python object handed to [__pow__] as exponent. *)
Inductive pyobj : Set :=
| PyNum (n : number)
| PyValue (v : ident)
| PyOther.

(** An operand of a binary operator: a node, or a raw number that the
    operator wraps into a fresh leaf. *)
Inductive operand : Set :=
| Node (v : ident)
| Raw (x : float).

(** The closure stored in [_backward].  Each constructor is one of the
    local functions [_backward] of the source with the variables it
    closes over ([self], [other], [alpha]); [out] is the node the closure
    is stored in. *)
Inductive rule : Set :=
| NoRule                                  (* lambda: None *)
| AddRule (self other : ident)
| MulRule (self other : ident)
| PowRule (self : ident) (other : number)
| ReluRule (self : ident)
| LeakyRule (self : ident) (alpha : float).

(** The string [_op], kept as a tag: ['']  ['+']  ['*']  [f'**{other}']
    ['ReLU']  ['LeakyReLU']. *)
Inductive op_tag : Set :=
| OpNone | OpAdd | OpMul | OpPow (other : number) | OpReLU | OpLeakyReLU.

Record Value : Set := mkValue {
  data : float;
  grad : float;
  _backward : rule;
  _prev : list ident;
  _op : op_tag;
  label : string
}.

Abbreviation heap := (list Value).

(** The state and exception monad of the interpreter. *)
Definition M (A : Type) : Type := heap -> result (A * heap).

Definition ret {A} (a : A) : M A := fun h => Ok (a, h).

Definition bind {A B} (m : M A) (k : A -> M B) : M B :=
  fun h =>
    match m h with
    | Ok (a, h') => k a h'
    | Raise e => Raise e
    | Beyond l => Beyond l
    end.

Definition lift {A} (r : result A) : M A :=
  fun h =>
    match r with
    | Ok a => Ok (a, h)
    | Raise e => Raise e
    | Beyond l => Beyond l
    end.

Declare Scope py_scope.
Delimit Scope py_scope with py.
Notation "x <- m ;; k" := (bind m (fun x => k))
  (at level 100, m at next level, right associativity) : py_scope.
Notation "m ;;; k" := (bind m (fun _ => k))
  (at level 100, right associativity) : py_scope.
Local Open Scope py_scope.

(** A cell that is read when an index is out of the heap; no reference
    that the operations hand out is ever out of it. *)
Definition no_value : Value := mkValue 0 0 NoRule [] OpNone "".

Definition node (h : heap) (v : ident) : Value := default no_value (h !! v).

Definition get_data (v : ident) : M float := fun h => Ok (data (node h v), h).
Definition get_grad (v : ident) : M float := fun h => Ok (grad (node h v), h).

Definition with_grad (g : float) (n : Value) : Value :=
  mkValue (data n) g (_backward n) (_prev n) (_op n) (label n).

Definition with_backward (r : rule) (n : Value) : Value :=
  mkValue (data n) (grad n) r (_prev n) (_op n) (label n).

(** [v.grad = g] *)
Definition set_grad (v : ident) (g : float) : M unit :=
  fun h => Ok (tt, alter (with_grad g) v h).

(** [v.grad += x] *)
Definition add_grad (v : ident) (x : float) : M unit :=
  g <- get_grad v ;; set_grad v (g + x).

(** [out._backward = r] *)
Definition set_backward (out : ident) (r : rule) : M unit :=
  fun h => Ok (tt, alter (with_backward r) out h).

(** ** Python's float arithmetic beyond [+], [*] and the comparisons *)

(** [float(z)] as the mixed arithmetic of Python converts an int: the
    nearest binary64, and [OverflowError] ("int too large to convert to
    float") when there is none. *)
Definition float_of_int (z : Z) : result float :=
  match binary_normalize prec emax z 0 false with
  | S754_infinity _ => Raise OverflowError
  | x => Ok (SF2Prim x)
  end.

(** [x == floor(x)] for a finite [x]. *)
Definition is_integer (x : float) : bool :=
  match Prim2SF x with
  | S754_zero _ => true
  | S754_finite _ m e =>
      (0 <=? e)%Z || (Z.land (Zpos m) (Z.ones (- e)) =? 0)%Z
  | _ => false
  end.

(** [fmod(fabs(x), 2.0) == 1.0] *)
Definition is_odd_integer (x : float) : bool :=
  match Prim2SF x with
  | S754_finite _ m e =>
      if (0 <? e)%Z then false
      else (Z.land (Zpos m) (Z.ones (- e)) =? 0)%Z
           && Z.odd (Z.shiftr (Zpos m) (- e))
  | _ => false
  end.

Definition copysign (x y : float) : float :=
  if get_sign y then - abs x else abs x.

Section Engine.

(** The value the C library's [pow] returns; Python consults it for a
    finite positive base other than 1 and a finite nonzero exponent. *)
Variable libm_pow : float -> float -> float.

(** The order in which Python iterates over a set of two nodes, which
    hashes them by address: [iter_swapped a b] says that the set built
    from the tuple [(a, b)] yields [b] first. *)
Variable iter_swapped : ident -> ident -> bool.

(** [iv ** iw] on floats.  Python settles the special cases before it
    consults the C library: anything to the power 0 is 1, 0.0 to a
    negative power raises [ZeroDivisionError], a negative base with a
    fractional exponent gives a complex number, and an overflowing
    result raises [OverflowError]. *)
Definition float_pow (iv iw : float) : result float :=
  if iw =? 0 then Ok 1
  else if is_nan iv then Ok iv
  else if is_nan iw then Ok (if iv =? 1 then 1 else iw)
  else if is_infinity iw then
    let av := abs iv in
    if av =? 1 then Ok 1
    else if Bool.eqb (0 <? iw) (1 <? av) then Ok (abs iw)
    else Ok 0
  else if is_infinity iv then
    let odd := is_odd_integer iw in
    if 0 <? iw then Ok (if odd then iv else abs iv)
    else Ok (if odd then copysign 0 iv else 0)
  else if iv =? 0 then
    if iw <? 0 then Raise ZeroDivisionError
    else Ok (if is_odd_integer iw then iv else 0)
  else if (iv <? 0) && negb (is_integer iw) then Beyond ComplexPower
  else
    let negate_result := (iv <? 0) && is_odd_integer iw in
    let av := if iv <? 0 then - iv else iv in
    if av =? 1 then Ok (if negate_result then -1 else 1)
    else
      let ix := libm_pow av iw in
      if is_infinity ix then Raise OverflowError
      else Ok (if negate_result then - ix else ix).

(** [x ** other] for a float [x] and a number [other]. *)
Definition py_pow (x : float) (other : number) : result float :=
  match other with
  | NInt z =>
      match float_of_int z with
      | Ok w => float_pow x w
      | Raise e => Raise e
      | Beyond l => Beyond l
      end
  | NFloat w => float_pow x w
  end.

(** [other - 1] *)
Definition number_pred (other : number) : number :=
  match other with
  | NInt z => NInt (z - 1)
  | NFloat w => NFloat (w - 1)
  end.

(** [other * x] for a number [other] and a float [x]. *)
Definition number_mul (other : number) (x : float) : result float :=
  match other with
  | NInt z =>
      match float_of_int z with
      | Ok w => Ok (w * x)
      | Raise e => Raise e
      | Beyond l => Beyond l
      end
  | NFloat w => Ok (w * x)
  end.

(** [set(_children)]: the children without repetition.  The operations
    pass one node or two. *)
Definition py_set (children : list ident) : list ident :=
  match children with
  | [a; b] =>
      if decide (a = b) then [a]
      else if iter_swapped a b then [b; a] else [a; b]
  | _ => remove_dups children
  end.

(** [Value(data, _children, _op)] *)
Definition __init__ (d : float) (children : list ident) (op : op_tag)
  : M ident :=
  fun h => Ok (length h, h ++ [mkValue d 0 NoRule (py_set children) op ""]).

(** [other if isinstance(other, Value) else Value(other)] *)
Definition as_value (other : operand) : M ident :=
  match other with
  | Node v => ret v
  | Raw x => __init__ x [] OpNone
  end.

Definition __add__ (self : ident) (other : operand) : M ident :=
  other <- as_value other ;;
  x <- get_data self ;;
  y <- get_data other ;;
  out <- __init__ (x + y) [self; other] OpAdd ;;
  set_backward out (AddRule self other) ;;;
  ret out.

Definition __radd__ (self : ident) (other : float) : M ident :=
  __add__ self (Raw other).

Definition __mul__ (self : ident) (other : operand) : M ident :=
  other <- as_value other ;;
  x <- get_data self ;;
  y <- get_data other ;;
  out <- __init__ (x * y) [self; other] OpMul ;;
  set_backward out (MulRule self other) ;;;
  ret out.

Definition __rmul__ (self : ident) (other : float) : M ident :=
  __mul__ self (Raw other).

Definition __pow__ (self : ident) (other : pyobj) : M ident :=
  match other with
  | PyNum other =>
      x <- get_data self ;;
      y <- lift (py_pow x other) ;;
      out <- __init__ y [self] (OpPow other) ;;
      set_backward out (PowRule self other) ;;;
      ret out
  | _ => lift (Raise AssertionError)
  end.

Definition __truediv__ (self : ident) (other : operand) : M ident :=
  other <- as_value other ;;
  p <- __pow__ other (PyNum (NInt (-1))) ;;
  __mul__ self (Node p).

(** [other * self**-1] with a raw [other]: the float cannot multiply a
    [Value], so Python calls [__rmul__] of the power node. *)
Definition __rtruediv__ (self : ident) (other : float) : M ident :=
  p <- __pow__ self (PyNum (NInt (-1))) ;;
  __rmul__ p other.

Definition __neg__ (self : ident) : M ident :=
  __mul__ self (Raw (-1)).

(** [self + (-other)]: the minus is [__neg__] on a node and the float
    negation on a raw number. *)
Definition __sub__ (self : ident) (other : operand) : M ident :=
  match other with
  | Node o => n <- __neg__ o ;; __add__ self (Node n)
  | Raw x => __add__ self (Raw (- x))
  end.

(** [other + (-self)] with a raw [other], which defers to [__radd__] of
    the negated node. *)
Definition __rsub__ (self : ident) (other : float) : M ident :=
  n <- __neg__ self ;;
  __radd__ n other.

Definition relu (self : ident) : M ident :=
  x <- get_data self ;;
  out <- __init__ (if x <? 0 then 0 else x) [self] OpReLU ;;
  set_backward out (ReluRule self) ;;;
  ret out.

Definition leaky_relu (self : ident) (alpha : float) : M ident :=
  x <- get_data self ;;
  out <- __init__ (if 0 <? x then x else alpha * x) [self] OpLeakyReLU ;;
  set_backward out (LeakyRule self alpha) ;;;
  ret out.

(** The default of [alpha], the binary64 nearest to [0.01]. *)
Definition default_alpha : float := 0x1.47ae147ae147bp-7.

(** ** The backward pass *)

(** [out._backward()] *)
Definition call_backward (out : ident) : M unit :=
  fun h =>
    match _backward (node h out) with
    | NoRule => ret tt h
    | AddRule self other =>
        (g <- get_grad out ;; add_grad self (1 * g) ;;;
         g <- get_grad out ;; add_grad other (1 * g)) h
    | MulRule self other =>
        (y <- get_data other ;; g <- get_grad out ;; add_grad self (y * g) ;;;
         x <- get_data self ;; g <- get_grad out ;; add_grad other (x * g)) h
    | PowRule self other =>
        (x <- get_data self ;;
         y <- lift (py_pow x (number_pred other)) ;;
         c <- lift (number_mul other y) ;;
         g <- get_grad out ;;
         add_grad self (c * g)) h
    | ReluRule self =>
        (d <- get_data out ;; g <- get_grad out ;;
         add_grad self ((if 0 <? d then 1 else 0) * g)) h
    | LeakyRule self alpha =>
        (d <- get_data out ;; g <- get_grad out ;;
         add_grad self ((if 0 <? d then 1 else alpha) * g)) h
    end.

(** The local function [build_topo] of [backward], threading the set
    [visited] and the list [topo] it mutates.  The recursion of the
    source is bounded here by [depth]; [None] says it went deeper. *)
Fixpoint build_topo (depth : nat) (h : heap) (v : ident)
    (st : gset ident * list ident) : option (gset ident * list ident) :=
  match depth with
  | O => None
  | S depth' =>
      if decide (v ∈ st.1) then Some st
      else
        match
          foldl (fun acc child =>
                   match acc with
                   | Some st' => build_topo depth' h child st'
                   | None => None
                   end)
                (Some ({[v]} ∪ st.1, st.2)) (_prev (node h v))
        with
        | Some st' => Some (st'.1, st'.2 ++ [v])
        | None => None
        end
  end.

(** [for node in reversed(topo): node._backward()] *)
Fixpoint sweep (nodes : list ident) : M unit :=
  match nodes with
  | [] => ret tt
  | n :: rest => call_backward n ;;; sweep rest
  end.

(** The list [topo] that [backward] builds for the root [self]. *)
Definition topo_of (h : heap) (self : ident) : option (list ident) :=
  match build_topo (length h) h self (∅, []) with
  | Some st => Some st.2
  | None => None
  end.

Definition backward (self : ident) : M unit :=
  fun h =>
    match topo_of h self with
    | None => Beyond RecursionDepth
    | Some topo => (set_grad self 1 ;;; sweep (reverse topo)) h
    end.

End Engine.

(** Running a script in a fresh interpreter. *)
Definition run {A} (m : M A) : result (A * heap) := m [].

(** [Value(d)]: a leaf. *)
Definition leaf (d : float) : M ident :=
  __init__ (fun _ _ => false) d [] OpNone.

(** ** Scripts of the concrete scenarios *)

Section Scenarios.

Variable libm_pow : float -> float -> float.
Variable iter_swapped : ident -> ident -> bool.

(** [x = Value(3); y = x + x] *)
Definition shared_node : M (ident * ident) :=
  x <- leaf 3 ;;
  y <- __add__ iter_swapped x (Node x) ;;
  ret (x, y).

(** [x = Value(2); q = x*x + x] *)
Definition diamond : M (ident * ident) :=
  x <- leaf 2 ;;
  t <- __mul__ iter_swapped x (Node x) ;;
  q <- __add__ iter_swapped t (Node x) ;;
  ret (x, q).

(** [a = Value(2.0); b = Value(-3.0); c = Value(10.0); e = a*b;
    d = e + c; f = Value(-2.0); L = d*f] *)
Definition end_to_end : M (ident * ident * ident * ident * ident * ident * ident) :=
  a <- leaf 2 ;;
  b <- leaf (-3) ;;
  c <- leaf 10 ;;
  e <- __mul__ iter_swapped a (Node b) ;;
  d <- __add__ iter_swapped e (Node c) ;;
  f <- leaf (-2) ;;
  L <- __mul__ iter_swapped d (Node f) ;;
  ret (a, b, c, d, e, f, L).

End Scenarios.

(** ** The shape of the heaps the operations build *)

(** The nodes whose [grad] a closure writes to. *)
Definition rule_operands (r : rule) : list ident :=
  match r with
  | NoRule => []
  | AddRule self other | MulRule self other => [self; other]
  | PowRule self _ | ReluRule self | LeakyRule self _ => [self]
  end.

(** A node refers to nodes allocated before it, in [_prev] and in its
    closure alike. *)
Definition node_ok (i : ident) (n : Value) : Prop :=
  (forall c, c ∈ _prev n -> c < i)
  /\ (forall c, c ∈ rule_operands (_backward n) -> c < i).

Definition graph_ok (h : heap) : Prop :=
  forall i n, h !! i = Some n -> node_ok i n.

(** [reachable h v w]: [w] is [v] or is reached from it along [_prev]. *)
Inductive reachable (h : heap) : ident -> ident -> Prop :=
| reachable_refl v : reachable h v v
| reachable_step v c w :
    c ∈ _prev (node h v) -> reachable h c w -> reachable h v w.

(** Every operand of a node of [topo] stands at a smaller position. *)
Definition operands_first (h : heap) (topo : list ident) : Prop :=
  forall i n o,
    topo !! i = Some n -> o ∈ _prev (node h n) ->
    exists j, j < i /\ topo !! j = Some o.

(** What [build_topo] keeps true of [visited] and [topo]. *)
Definition dfs_inv (h : heap) (st : gset ident * list ident) : Prop :=
  (forall n, n ∈ st.2 -> n ∈ st.1) /\ NoDup st.2 /\ operands_first h st.2.

(** A run of the traversal from [st] to [st'] appended the nodes [new],
    all of them in [P] and unvisited before. *)
Definition dfs_step (h : heap) (P : ident -> Prop)
    (st st' : gset ident * list ident) : Prop :=
  exists new,
    st'.2 = st.2 ++ new
    /\ (forall n, n ∈ st'.1 <-> n ∈ st.1 \/ n ∈ new)
    /\ (forall n, n ∈ new -> P n /\ n ∉ st.1)
    /\ dfs_inv h st'.

(** The operands of a closure are children of its node. *)
Definition closures_ok (h : heap) : Prop :=
  forall i n c,
    h !! i = Some n -> c ∈ rule_operands (_backward n) -> c ∈ _prev n.

(** What a backward pass never changes in a node: all but [grad]. *)
Definition structure_of (n : Value) : float * rule * list ident * op_tag * string :=
  (data n, _backward n, _prev n, _op n, label n).

Definition same_structure (h h' : heap) : Prop :=
  length h' = length h
  /\ forall i, structure_of (node h' i) = structure_of (node h i).

(** [x == y] as Python compares floats, or both the not-a-number. *)
Definition same_number (x y : float) : Prop :=
  x = y \/ (x =? y) = true.

(** ** Calls of the operations *)

(** One call of a constructor, operator or activation on given
    arguments. *)
Inductive call : Set :=
| CallValue (d : float)
| CallAdd (self : ident) (other : operand)
| CallRadd (self : ident) (other : float)
| CallMul (self : ident) (other : operand)
| CallRmul (self : ident) (other : float)
| CallPow (self : ident) (other : pyobj)
| CallTruediv (self : ident) (other : operand)
| CallRtruediv (self : ident) (other : float)
| CallNeg (self : ident)
| CallSub (self : ident) (other : operand)
| CallRsub (self : ident) (other : float)
| CallRelu (self : ident)
| CallLeakyRelu (self : ident) (alpha : float).

Definition operand_in (h : heap) (o : operand) : Prop :=
  match o with
  | Node v => v < length h
  | Raw _ => True
  end.

(** The nodes a call is made on exist. *)
Definition args_in (h : heap) (c : call) : Prop :=
  match c with
  | CallValue _ => True
  | CallAdd self other | CallMul self other
  | CallTruediv self other | CallSub self other =>
      self < length h /\ operand_in h other
  | CallRadd self _ | CallRmul self _ | CallRtruediv self _
  | CallRsub self _ | CallPow self _ | CallNeg self | CallRelu self
  | CallLeakyRelu self _ => self < length h
  end.

Section Calls.

Variable libm_pow : float -> float -> float.
Variable iter_swapped : ident -> ident -> bool.

Definition perform (c : call) : M ident :=
  match c with
  | CallValue d => __init__ iter_swapped d [] OpNone
  | CallAdd self other => __add__ iter_swapped self other
  | CallRadd self other => __radd__ iter_swapped self other
  | CallMul self other => __mul__ iter_swapped self other
  | CallRmul self other => __rmul__ iter_swapped self other
  | CallPow self other => __pow__ libm_pow iter_swapped self other
  | CallTruediv self other => __truediv__ libm_pow iter_swapped self other
  | CallRtruediv self other => __rtruediv__ libm_pow iter_swapped self other
  | CallNeg self => __neg__ iter_swapped self
  | CallSub self other => __sub__ iter_swapped self other
  | CallRsub self other => __rsub__ iter_swapped self other
  | CallRelu self => relu iter_swapped self
  | CallLeakyRelu self alpha => leaky_relu iter_swapped self alpha
  end.

(** The heaps a program reaches from the empty one by calls on existing
    nodes and backward passes. *)
Inductive built : heap -> Prop :=
| built_empty : built []
| built_call h c out h' :
    built h -> args_in h c -> perform c h = Ok (out, h') -> built h'
| built_backward h root h' :
    built h -> root < length h ->
    backward libm_pow root h = Ok (tt, h') -> built h'.

(** The cell an operation allocates: [Value(d, children, op)] with the
    closure [r] stored in it. *)
Definition cell (d : float) (r : rule) (children : list ident) (op : op_tag)
  : Value :=
  mkValue d 0 r (py_set iter_swapped children) op "".

End Calls.

(** What [as_value] makes of an operand: the heap after it, the node it
    returns and the number in it. *)
Definition operand_heap (h : heap) (o : operand) : heap :=
  match o with
  | Node _ => h
  | Raw x => h ++ [mkValue x 0 NoRule [] OpNone ""]
  end.

Definition operand_node (h : heap) (o : operand) : ident :=
  match o with
  | Node v => v
  | Raw _ => length h
  end.

Definition operand_data (h : heap) (o : operand) : float :=
  match o with
  | Node v => data (node h v)
  | Raw x => x
  end.

(** A call left the heap it found in place and appended to it; the node
    it returns is the last one. *)
Definition extends (h : heap) (out : ident) (h' : heap) : Prop :=
  exists l, h' = h ++ l /\ length h' = S out /\ length h <= out.

Definition heap_ok (h : heap) : Prop := graph_ok h /\ closures_ok h.

(** The value of the node a call returned. *)
Definition value_of (r : result (ident * heap)) : result float :=
  match r with
  | Ok (out, h) => Ok (data (node h out))
  | Raise e => Raise e
  | Beyond l => Beyond l
  end.

(** [x.grad] once a computation is through. *)
Definition grad_after (x : ident) (r : result (unit * heap)) : result float :=
  match r with
  | Ok (_, h) => Ok (grad (node h x))
  | Raise e => Raise e
  | Beyond l => Beyond l
  end.

(** * micrograd/nn.py: neurons, layers and the multi-layer perceptron

    The classes [Neuron], [Layer] and [MLP] are records of node
    identities.  [np.random.uniform(-1, 1)] is a stream of floats, the
    generator's successive draws, read at a position that the
    constructors thread. *)

Module nn.

(** A failure of the network code, or one that an engine operation
    handed up. *)
Inductive error : Set :=
| TypeError
| EngineRaise (e : exn)
| EngineBeyond (l : limit).

Definition NN (A : Type) : Type := heap -> error + A * heap.

Definition nn_ret {A} (a : A) : NN A := fun h => inr (a, h).

Definition nn_bind {A B} (m : NN A) (k : A -> NN B) : NN B :=
  fun h =>
    match m h with
    | inr (a, h') => k a h'
    | inl e => inl e
    end.

Definition of_engine {A} (m : M A) : NN A :=
  fun h =>
    match m h with
    | Ok r => inr r
    | Raise e => inl (EngineRaise e)
    | Beyond l => inl (EngineBeyond l)
    end.

(** The argument [x] of a call: a list of numbers and nodes, or one node,
    which is what a layer of one neuron returns. *)
Inductive pyarg : Set :=
| Seq (xs : list operand)
| Single (v : ident).

Record Neuron : Set := mkNeuron {
  w : list ident;
  b : ident;
  nonlinear : Z          (* a bool or an int, as Python tests it *)
}.

Record Layer : Set := mkLayer { neurons : list Neuron }.

Record MLP : Set := mkMLP { layers : list Layer }.

(** [if z:] for an int or bool [z]. *)
Definition truthy (z : Z) : bool := negb (z =? 0)%Z.

(** [Module.zero_grad]: [for p in self.parameters(): p.grad = 0.0] *)
Fixpoint zero_grad (parameters : list ident) : M unit :=
  match parameters with
  | [] => ret tt
  | p :: rest => set_grad p 0 ;;; zero_grad rest
  end.

(** [Module.parameters] of the base class. *)
Definition Module_parameters : list ident := [].

Definition Neuron_parameters (n : Neuron) : list ident := w n ++ [b n].

Definition Layer_parameters (l : Layer) : list ident :=
  concat (map Neuron_parameters (neurons l)).

Definition MLP_parameters (m : MLP) : list ident :=
  concat (map Layer_parameters (layers m)).

Section Network.

(** [uniform k] is the [k]-th number that [np.random.uniform(-1, 1)]
    yields. *)
Variable uniform : nat -> float.
Variable iter_swapped : ident -> ident -> bool.

(** [[Value(np.random.uniform(-1,1)) for _ in range(nin)]] from the draw
    [k] on. *)
Fixpoint draw_weights (k nin : nat) : M (list ident) :=
  match nin with
  | O => ret []
  | S nin' =>
      v <- leaf (uniform k) ;;
      vs <- draw_weights (S k) nin' ;;
      ret (v :: vs)
  end.

(** [Neuron(nin, nonlin)]; the result comes with the position of the next
    draw. *)
Definition Neuron_init (k nin : nat) (nonlin : Z) : M (Neuron * nat) :=
  ws <- draw_weights k nin ;;
  bias <- leaf 0 ;;
  ret (mkNeuron ws bias nonlin, (k + nin)%nat).

(** [sum((wi*xi for wi, xi in zip(self.w, x)), self.b)]: the products are
    made one at a time, each added to the running sum as it is made. *)
Fixpoint weighted_sum (acc : ident) (wx : list (ident * operand)) : M ident :=
  match wx with
  | [] => ret acc
  | (wi, xi) :: rest =>
      p <- __mul__ iter_swapped wi xi ;;
      acc' <- __add__ iter_swapped acc (Node p) ;;
      weighted_sum acc' rest
  end.

(** [Neuron.__call__]: a node is not iterable, so [zip] raises
    [TypeError] on it. *)
Definition Neuron_call (n : Neuron) (x : pyarg) : NN ident :=
  match x with
  | Single _ => fun _ => inl TypeError
  | Seq xs =>
      nn_bind (of_engine (weighted_sum (b n) (zip (w n) xs))) (fun activation =>
      if truthy (nonlinear n) then of_engine (relu iter_swapped activation)
      else nn_ret activation)
  end.

(** [[Neuron(nin, non) for _ in range(non)]]: the neurons are made with
    [non] as their [nonlin]. *)
Fixpoint make_neurons (k nin : nat) (nonlin : Z) (count : nat)
  : M (list Neuron * nat) :=
  match count with
  | O => ret ([], k)
  | S count' =>
      nk <- Neuron_init k nin nonlin ;;
      rest <- make_neurons nk.2 nin nonlin count' ;;
      ret (nk.1 :: rest.1, rest.2)
  end.

(** [Layer(nin, non, **kwargs)]; the keyword [nonlinear] that [MLP]
    passes lands in [kwargs], which nothing reads. *)
Definition Layer_init (k nin non : nat) (kwargs : option bool)
  : M (Layer * nat) :=
  ns <- make_neurons k nin (Z.of_nat non) non ;;
  ret (mkLayer ns.1, ns.2).

(** [[n(x) for n in self.neurons]] *)
Fixpoint call_neurons (ns : list Neuron) (x : pyarg) : NN (list ident) :=
  match ns with
  | [] => nn_ret []
  | n :: rest =>
      nn_bind (Neuron_call n x) (fun v =>
      nn_bind (call_neurons rest x) (fun vs =>
      nn_ret (v :: vs)))
  end.

(** [Layer.__call__]: [out[0] if len(out) == 1 else out] *)
Definition Layer_call (l : Layer) (x : pyarg) : NN pyarg :=
  nn_bind (call_neurons (neurons l) x) (fun out =>
  nn_ret (match out with
          | [v] => Single v
          | _ => Seq (map Node out)
          end)).

(** The layers [Layer(size[i], size[i+1], nonlinear=i != len(nons)-1)]
    for [i] from [i0] on, where [size[i]] is [nin], the sizes after it are
    [nons] and [len(nons)] is [total]. *)
Fixpoint make_layers (k nin : nat) (nons : list nat) (i0 total : nat)
  : M (list Layer * nat) :=
  match nons with
  | [] => ret ([], k)
  | non :: nons' =>
      lk <- Layer_init k nin non (Some (negb (i0 =? total - 1)%nat)) ;;
      rest <- make_layers lk.2 non nons' (S i0) total ;;
      ret (lk.1 :: rest.1, rest.2)
  end.

(** [MLP(nin, nons)] *)
Definition MLP_init (k nin : nat) (nons : list nat) : M (MLP * nat) :=
  ls <- make_layers k nin nons 0 (length nons) ;;
  ret (mkMLP ls.1, ls.2).

(** [MLP.__call__]: [for layer in self.layers: x = layer(x)] *)
Fixpoint call_layers (ls : list Layer) (x : pyarg) : NN pyarg :=
  match ls with
  | [] => nn_ret x
  | l :: rest => nn_bind (Layer_call l x) (call_layers rest)
  end.

Definition MLP_call (m : MLP) (x : pyarg) : NN pyarg :=
  call_layers (layers m) x.

End Network.

End nn.

(** ** What the constructors of the network allocate *)

Definition leaf_cell (d : float) : Value := mkValue d 0 NoRule [] OpNone "".

(** The cell of a leaf, with whatever data, and a gradient of zero. *)
Definition is_leaf_cell (n : Value) : Prop :=
  grad n = 0 /\ _backward n = NoRule /\ _prev n = [].

(** From [h] to [h'] exactly the nodes [ps] were allocated, in this
    order, all of them leaves. *)
Definition fresh_leaves (h : heap) (ps : list ident) (h' : heap) : Prop :=
  exists l,
    h' = h ++ l /\ ps = seq (length h) (length l) /\ Forall is_leaf_cell l.

(** The number of parameters of an [MLP(nin, nons)]. *)
Fixpoint parameter_count (nin : nat) (nons : list nat) : nat :=
  match nons with
  | [] => O
  | non :: nons' => (non * (nin + 1) + parameter_count non nons')%nat
  end.

(** The value of a neuron on the inputs [xs]: the bias plus the products,
    added up from the left, through [relu] if the neuron is nonlinear. *)
Definition neuron_value (h : heap) (n : nn.Neuron) (xs : list operand)
  : float :=
  let s :=
    foldl (fun acc wx => acc + data (node h wx.1) * operand_data h wx.2)
      (data (node h (nn.b n))) (zip (nn.w n) xs) in
  if nn.truthy (nn.nonlinear n) then (if s <? 0 then 0 else s) else s.

(** The nodes in the result of a call. *)
Definition result_nodes (x : nn.pyarg) : list ident :=
  match x with
  | nn.Single v => [v]
  | nn.Seq xs =>
      concat (map (fun o => match o with Node v => [v] | Raw _ => [] end) xs)
  end.

(** The nodes of an argument exist. *)
Definition arg_in (h : heap) (x : nn.pyarg) : Prop :=
  match x with
  | nn.Seq xs => Forall (operand_in h) xs
  | nn.Single v => v < length h
  end.

(** ** Sample inputs

    A power function and an iteration order to run the operations with,
    the graph of [a = Value(2.0); b = Value(0.0); a + b], a stream of
    draws, and a neuron and a layer on the nodes of that graph. *)

Definition sample_pow (x y : float) : float := 1 / x.

Definition in_order (a b : ident) : bool := false.

Definition sample_graph : heap :=
  match run (a <- leaf 2 ;; b <- leaf 0 ;; __add__ in_order a (Node b)) with
  | Ok (_, h) => h
  | _ => []
  end.

Definition sample_draws (k : nat) : float := 0.5.

Definition sample_neuron : nn.Neuron := nn.mkNeuron [0%nat] 1%nat 1.

Definition sample_layer : nn.Layer := nn.mkLayer [sample_neuron].

(** * Theorems *)

(** ** The concrete scenarios *)

Section Concrete.

Variable libm_pow : float -> float -> float.
Variable iter_swapped : ident -> ident -> bool.

(** C1: gradients accumulate per use-site.  With [x.data = 3],
    [y = x + x] and [backward(y)] give [x.grad = 2.0]; with
    [x.data = 2], [q = x*x + x] has [q.data = 6] and [backward(q)] gives
    [x.grad = 5.0]; in both the list [topo] holds [x] exactly once,
    whichever order the operand sets are iterated in. *)
Theorem shared_node_accumulation :
  (exists x y h topo h',
      run (shared_node iter_swapped) = Ok ((x, y), h)
      /\ topo_of h y = Some topo
      /\ count_occ Nat.eq_dec topo x = 1%nat
      /\ backward libm_pow y h = Ok (tt, h')
      /\ grad (node h' x) = 2)
  /\ (exists x q h topo h',
      run (diamond iter_swapped) = Ok ((x, q), h)
      /\ data (node h q) = 6
      /\ topo_of h q = Some topo
      /\ count_occ Nat.eq_dec topo x = 1%nat
      /\ backward libm_pow q h = Ok (tt, h')
      /\ grad (node h' x) = 5).
Proof.
  split.
  - do 5 eexists. repeat split; vm_compute; reflexivity.
  - destruct (iter_swapped 1%nat 0%nat) eqn:E;
      do 5 eexists;
      (split; [vm_compute; rewrite E; reflexivity |]);
      repeat split; vm_compute; reflexivity.
Qed.

(** C3: the end-to-end scenario.  [L.data = -8.0], and [backward(L)]
    leaves [a.grad = 6.0], [b.grad = -4.0], [c.grad = -2.0],
    [d.grad = -2.0], [e.grad = -2.0] and [f.grad = 4.0]. *)
Theorem end_to_end_gradients :
  exists a b c d e f L h h',
    run (end_to_end iter_swapped) = Ok ((a, b, c, d, e, f, L), h)
    /\ data (node h L) = -8
    /\ backward libm_pow L h = Ok (tt, h')
    /\ grad (node h' a) = 6
    /\ grad (node h' b) = -4
    /\ grad (node h' c) = -2
    /\ grad (node h' d) = -2
    /\ grad (node h' e) = -2
    /\ grad (node h' f) = 4.
Proof.
  destruct (iter_swapped 0%nat 1%nat) eqn:E1,
           (iter_swapped 3%nat 2%nat) eqn:E2,
           (iter_swapped 4%nat 5%nat) eqn:E3;
    do 9 eexists;
    (split; [vm_compute; rewrite E1, E2, E3; reflexivity |]);
    repeat split; vm_compute; reflexivity.
Qed.

End Concrete.

Local Close Scope float_scope.

(** * Further properties of the engine and of the network *)

(** ** IEEE binary64 facts *)

Lemma SFmul_comm x y : SFmul prec emax x y = SFmul prec emax y x.
Proof.
  destruct x as [sx|sx| |sx mx ex], y as [sy|sy| |sy my ey]; simpl;
    rewrite ?(xorb_comm sx sy); try reflexivity.
  by rewrite Pos.mul_comm, Z.add_comm.
Qed.

Lemma SFadd_comm x y : SFadd prec emax x y = SFadd prec emax y x.
Proof.
  destruct x as [sx|sx| |sx mx ex], y as [sy|sy| |sy my ey]; simpl;
    try reflexivity; try (by destruct sx, sy).
  by rewrite Z.min_comm, Z.add_comm.
Qed.

Lemma SFadd_opp x y : SFadd prec emax x (SFopp y) = SFsub prec emax x y.
Proof.
  destruct x as [sx|sx| |sx mx ex], y as [sy|sy| |sy my ey]; simpl;
    try reflexivity; by destruct sx, sy.
Qed.

(** A product by a power of two that stays in range is exact: rounding
    [m * 2^52] at exponent [e - 52] gives back the canonical [m] at [e]. *)
Lemma round_shifted s m e :
  bounded prec emax m e = true ->
  binary_round_aux prec emax s (Zpos (Pos.iter xO m 52)) (e + -52) loc_Exact
  = S754_finite s m e.
Proof.
  unfold bounded, canonical_mantissa. intros Hb.
  apply andb_prop in Hb as [Hc He]. apply Z.eqb_eq in Hc.
  unfold binary_round_aux, shr_fexp.
  assert (Hd : (Zdigits2 (Zpos (Pos.iter xO m 52)) + (e + -52) = Zpos (digits2_pos m) + e)%Z).
  { simpl. lia. }
  rewrite Hd, Hc.
  replace (e - (e + -52))%Z with 52%Z by lia.
  simpl shr. 
  cbn [shr shr_record_of_loc iter_pos shr_1 Pos.iter orb].
  cbn [shr_m loc_of_shr_record round_nearest_even].
  replace (e + -52 + 52)%Z with e by lia.
  cbn [Zdigits2]. rewrite Hc, Z.sub_diag. cbn [shr shr_record_of_loc shr_m].
  by rewrite He.
Qed.

Lemma SFmul_unit_l s x :
  valid_binary x = true ->
  SFmul prec emax (S754_finite s 4503599627370496 (-52)) x
  = if s then SFopp x else x.
Proof.
  destruct x as [sx|sx| |sx mx ex]; intros Hv.
  - by destruct s.
  - by destruct s.
  - by destruct s.
  - cbn [SFmul]. rewrite (Z.add_comm (-52) ex).
    change (4503599627370496 * mx)%positive with (Pos.iter xO mx 52).
    rewrite round_shifted by exact Hv. by destruct s.
Qed.


Lemma fmul_comm (x y : float) : (x * y = y * x)%float.
Proof. apply Prim2SF_inj. rewrite !mul_spec. apply SFmul_comm. Qed.

Lemma fadd_comm (x y : float) : (x + y = y + x)%float.
Proof. apply Prim2SF_inj. rewrite !add_spec. apply SFadd_comm. Qed.

Lemma fmul_1_l (x : float) : (1 * x = x)%float.
Proof.
  apply Prim2SF_inj. rewrite mul_spec.
  change (Prim2SF 1) with (S754_finite false 4503599627370496 (-52)).
  apply (SFmul_unit_l false), Prim2SF_valid.
Qed.

Lemma fmul_m1_l (x : float) : (-1 * x = - x)%float.
Proof.
  apply Prim2SF_inj. rewrite mul_spec, opp_spec.
  change (Prim2SF (-1)) with (S754_finite true 4503599627370496 (-52)).
  apply (SFmul_unit_l true), Prim2SF_valid.
Qed.

Lemma fmul_m1_r (x : float) : (x * -1 = - x)%float.
Proof. rewrite fmul_comm. apply fmul_m1_l. Qed.

Lemma fadd_opp_r (x y : float) : (x + - y = x - y)%float.
Proof.
  apply Prim2SF_inj. rewrite add_spec, sub_spec, opp_spec. apply SFadd_opp.
Qed.

(** *** Classes of floats *)

Lemma SFeqb_refl x : x <> S754_nan -> SFeqb x x = true.
Proof.
  unfold SFeqb. destruct x as [s|s| |s m e]; simpl; intros H; try done.
  - by destruct s.
  - rewrite Z.compare_refl, Pos.compare_cont_refl. by destruct s.
Qed.

Lemma is_nan_spec (x : float) : is_nan x = true <-> Prim2SF x = S754_nan.
Proof.
  unfold is_nan. rewrite eqb_spec. split.
  - intros H. destruct (Prim2SF x) eqn:E; try done;
      rewrite SFeqb_refl in H; done.
  - by intros ->.
Qed.

Lemma is_zero_spec (x : float) :
  is_zero x = true <-> exists s, Prim2SF x = S754_zero s.
Proof.
  unfold is_zero. rewrite eqb_spec.
  change (Prim2SF zero) with (S754_zero false). split.
  - destruct (Prim2SF x) as [s|s| |s m e]; try done; [by exists s| |];
      by destruct s.
  - by intros [s ->].
Qed.

Lemma is_infinity_spec (x : float) :
  is_infinity x = true <-> exists s, Prim2SF x = S754_infinity s.
Proof.
  unfold is_infinity. rewrite eqb_spec, abs_spec.
  change (Prim2SF infinity) with (S754_infinity false). split.
  - destruct (Prim2SF x) as [s|s| |s m e]; try done. by exists s.
  - by intros [s ->].
Qed.

Lemma is_finite_cases (x : float) :
  is_finite x = true ->
  (exists s, Prim2SF x = S754_zero s)
  \/ (exists s m e, Prim2SF x = S754_finite s m e).
Proof.
  unfold is_finite. rewrite negb_true_iff, orb_false_iff.
  rewrite <- !not_true_iff_false, is_nan_spec, is_infinity_spec.
  intros [Hn Hi]. destruct (Prim2SF x) as [s|s| |s m e].
  - left. by exists s.
  - destruct Hi. by exists s.
  - by destruct Hn.
  - right. by exists s, m, e.
Qed.

(** *** Python's [==], with not-a-number equal to itself *)

Lemma same_number_zero (x y : float) :
  is_zero x = true -> is_zero y = true -> same_number x y.
Proof.
  rewrite !is_zero_spec. intros [sx Hx] [sy Hy]. right.
  by rewrite eqb_spec, Hx, Hy.
Qed.

Lemma fmul_0_finite (g : float) :
  is_finite g = true -> is_zero (0 * g) = true.
Proof.
  intros Hg. apply is_zero_spec. rewrite mul_spec.
  change (Prim2SF 0) with (S754_zero false).
  destruct (is_finite_cases g Hg) as [[s ->]|(s & m & e & ->)]; by eexists.
Qed.

Lemma fadd_zero_r (x z : float) :
  is_zero z = true -> same_number (x + z) x.
Proof.
  rewrite is_zero_spec. intros [sz Hz].
  destruct (Prim2SF x) as [s|s| |s m e] eqn:Hx.
  - apply same_number_zero; apply is_zero_spec; [|by exists s].
    rewrite add_spec, Hx, Hz. destruct s, sz; by eexists.
  - left. apply Prim2SF_inj. by rewrite add_spec, Hx, Hz.
  - left. apply Prim2SF_inj. by rewrite add_spec, Hx, Hz.
  - left. apply Prim2SF_inj. by rewrite add_spec, Hx, Hz.
Qed.

Lemma fadd_0_l (x : float) : (0 + x = x)%float \/ (x = -0 /\ 0 + x = 0)%float.
Proof.
  destruct (Prim2SF x) as [s|s| |s m e] eqn:Hx.
  - destruct s.
    + right. split; apply Prim2SF_inj; [by rewrite Hx|].
      by rewrite add_spec, Hx.
    + left. apply Prim2SF_inj. by rewrite add_spec, Hx.
  - left. apply Prim2SF_inj. by rewrite add_spec, Hx.
  - left. apply Prim2SF_inj. by rewrite add_spec, Hx.
  - left. apply Prim2SF_inj. by rewrite add_spec, Hx.
Qed.

Lemma fopp_involutive (x : float) : (- - x = x)%float.
Proof.
  apply Prim2SF_inj. rewrite !opp_spec.
  destruct (Prim2SF x) as [s|s| |s m e]; simpl; by rewrite ?negb_involutive.
Qed.


(** ** Reading the heap *)

Lemma node_lookup (h : heap) v n : h !! v = Some n -> node h v = n.
Proof. unfold node. by intros ->. Qed.

Lemma node_outside (h : heap) v : length h <= v -> node h v = no_value.
Proof. intros H. unfold node. by rewrite (lookup_ge_None_2 h v H). Qed.

Lemma lookup_node (h : heap) v : v < length h -> h !! v = Some (node h v).
Proof.
  intros H. unfold node.
  by destruct (lookup_lt_is_Some_2 h v H) as [n ->].
Qed.

Lemma node_app_l (h k : heap) v : v < length h -> node (h ++ k) v = node h v.
Proof. intros H. unfold node. by rewrite lookup_app_l. Qed.

Lemma node_alloc (h : heap) n v : v = length h -> node (h ++ [n]) v = n.
Proof. intros ->. apply node_lookup. by rewrite list_lookup_middle. Qed.

Lemma alter_alloc (f : Value -> Value) (h : heap) n :
  alter f (length h) (h ++ [n]) = h ++ [f n].
Proof.
  replace (length h) with (length h + 0) by lia. by rewrite alter_app_r.
Qed.

Lemma node_alter_eq f (h : heap) v :
  v < length h -> node (alter f v h) v = f (node h v).
Proof.
  intros H. unfold node. rewrite list_lookup_alter_eq.
  by destruct (lookup_lt_is_Some_2 h v H) as [n ->].
Qed.

Lemma node_alter_ne f (h : heap) v w :
  v <> w -> node (alter f v h) w = node h w.
Proof. intros H. unfold node. by rewrite list_lookup_alter_ne. Qed.

Lemma structure_with_grad g n : structure_of (with_grad g n) = structure_of n.
Proof. done. Qed.

Lemma structure_alter_grad g (h : heap) v i :
  structure_of (node (alter (with_grad g) v h) i) = structure_of (node h i).
Proof.
  destruct (decide (v = i)) as [->|Hne]; [|by rewrite node_alter_ne].
  destruct (decide (i < length h)) as [Hi|Hi].
  - by rewrite node_alter_eq.
  - by rewrite !node_outside by (rewrite ?length_alter; lia).
Qed.

Lemma same_structure_refl h : same_structure h h.
Proof. by split. Qed.

Lemma same_structure_trans h1 h2 h3 :
  same_structure h1 h2 -> same_structure h2 h3 -> same_structure h1 h3.
Proof.
  intros [L1 S1] [L2 S2]. split; [congruence|].
  intros i. by rewrite S2, S1.
Qed.

Lemma same_structure_alter_grad g (h : heap) v :
  same_structure h (alter (with_grad g) v h).
Proof. split; [apply length_alter|]. intros i. apply structure_alter_grad. Qed.

Lemma structure_fields n n' :
  structure_of n' = structure_of n ->
  data n' = data n /\ _backward n' = _backward n /\ _prev n' = _prev n.
Proof. unfold structure_of. intros [= -> -> -> _ _]. done. Qed.

(** Lengths of the heaps that the tactics below meet. *)
Ltac len :=
  cbn [operand_in];
  repeat (rewrite length_app || rewrite length_alter); simpl; lia.

(** Reads through allocations and updates of [grad]. *)
Ltac read_heap :=
  repeat first
    [ rewrite node_alloc by len
    | rewrite node_app_l by len
    | rewrite node_alter_eq by len
    | rewrite node_alter_ne by len ];
  cbn [cell with_grad with_backward data grad _backward _prev _op label].

(** ** What one closure does *)

Lemma add_grad_eq v x (h : heap) :
  add_grad v x h = Ok (tt, alter (with_grad (grad (node h v) + x)%float) v h).
Proof. done. Qed.

Section Closures.
Variable libm_pow : float -> float -> float.

Lemma call_backward_none (h : heap) out :
  _backward (node h out) = NoRule -> call_backward libm_pow out h = Ok (tt, h).
Proof. unfold call_backward. by intros ->. Qed.

Lemma call_backward_add (h : heap) out self other :
  _backward (node h out) = AddRule self other ->
  call_backward libm_pow out h
  = let h1 := alter (with_grad (grad (node h self) + 1 * grad (node h out))%float) self h in
    Ok (tt, alter (with_grad (grad (node h1 other) + 1 * grad (node h1 out))%float) other h1).
Proof. unfold call_backward. by intros ->. Qed.

Lemma call_backward_mul (h : heap) out self other :
  _backward (node h out) = MulRule self other ->
  call_backward libm_pow out h
  = let h1 := alter (with_grad (grad (node h self)
                       + data (node h other) * grad (node h out))%float) self h in
    Ok (tt, alter (with_grad (grad (node h1 other)
                       + data (node h1 self) * grad (node h1 out))%float) other h1).
Proof. unfold call_backward. by intros ->. Qed.

Lemma call_backward_pow (h : heap) out self other :
  _backward (node h out) = PowRule self other ->
  call_backward libm_pow out h
  = match py_pow libm_pow (data (node h self)) (number_pred other) with
    | Ok y =>
        match number_mul other y with
        | Ok c => Ok (tt, alter (with_grad (grad (node h self)
                                   + c * grad (node h out))%float) self h)
        | Raise e => Raise e
        | Beyond l => Beyond l
        end
    | Raise e => Raise e
    | Beyond l => Beyond l
    end.
Proof.
  unfold call_backward. intros ->. unfold bind, lift, get_data.
  destruct (py_pow _ _ _) as [y| |]; try done.
  by destruct (number_mul other y).
Qed.

Lemma call_backward_relu (h : heap) out self :
  _backward (node h out) = ReluRule self ->
  call_backward libm_pow out h
  = Ok (tt, alter (with_grad (grad (node h self)
              + (if 0 <? data (node h out) then 1 else 0) * grad (node h out))%float)
              self h).
Proof. unfold call_backward. by intros ->. Qed.

Lemma call_backward_leaky (h : heap) out self alpha :
  _backward (node h out) = LeakyRule self alpha ->
  call_backward libm_pow out h
  = Ok (tt, alter (with_grad (grad (node h self)
              + (if 0 <? data (node h out) then 1 else alpha) * grad (node h out))%float)
              self h).
Proof. unfold call_backward. by intros ->. Qed.

(** A closure changes [grad] only, and only of its operands. *)
Lemma call_backward_frame (h h' : heap) out :
  call_backward libm_pow out h = Ok (tt, h') ->
  same_structure h h'
  /\ forall i, i ∉ rule_operands (_backward (node h out)) ->
       grad (node h' i) = grad (node h i).
Proof.
  destruct (_backward (node h out)) as [|s o|s o|s p|s|s a] eqn:E; intros H.
  - rewrite call_backward_none in H by done. injection H as <-.
    split; [apply same_structure_refl|done].
  - rewrite (call_backward_add _ _ _ _ E) in H. injection H as <-. split.
    + eapply same_structure_trans; apply same_structure_alter_grad.
    + intros i Hi. rewrite !node_alter_ne; [done| |];
        intros ->; apply Hi; simpl; set_solver.
  - rewrite (call_backward_mul _ _ _ _ E) in H. injection H as <-. split.
    + eapply same_structure_trans; apply same_structure_alter_grad.
    + intros i Hi. rewrite !node_alter_ne; [done| |];
        intros ->; apply Hi; simpl; set_solver.
  - rewrite (call_backward_pow _ _ _ _ E) in H.
    destruct (py_pow _ _ _) as [y| |]; try done.
    destruct (number_mul p y) as [c| |]; try done. injection H as <-. split.
    + apply same_structure_alter_grad.
    + intros i Hi. rewrite node_alter_ne; [done|].
      intros ->; apply Hi; simpl; set_solver.
  - rewrite (call_backward_relu _ _ _ E) in H. injection H as <-. split.
    + apply same_structure_alter_grad.
    + intros i Hi. rewrite node_alter_ne; [done|].
      intros ->; apply Hi; simpl; set_solver.
  - rewrite (call_backward_leaky _ _ _ _ E) in H. injection H as <-. split.
    + apply same_structure_alter_grad.
    + intros i Hi. rewrite node_alter_ne; [done|].
      intros ->; apply Hi; simpl; set_solver.
Qed.

End Closures.

(** ** Graphs ordered by allocation *)

Lemma node_prev_lt h v c : graph_ok h -> c ∈ _prev (node h v) -> c < v.
Proof.
  intros Hok Hc. unfold node in Hc.
  destruct (h !! v) as [n|] eqn:E; simpl in Hc.
  - destruct (Hok v n E) as [H1 _]. by apply H1.
  - by apply elem_of_nil in Hc.
Qed.


Lemma reachable_trans h u v w :
  reachable h u v -> reachable h v w -> reachable h u w.
Proof. induction 1; eauto using reachable. Qed.

(** ** The topological sort *)

Section Traversal.
Variable h : heap.
Hypothesis Hok : graph_ok h.

Lemma dfs_step_refl (P : ident -> Prop) st : dfs_inv h st -> dfs_step h P st st.
Proof.
  intros Hinv. exists []. rewrite app_nil_r.
  split; [done|]. split; [|split; [|done]].
  - intros n. split; [by left|]. intros [Hn|Hn]; [done|].
    by apply elem_of_nil in Hn.
  - intros n Hn. by apply elem_of_nil in Hn.
Qed.

Lemma dfs_step_trans (P Q R : ident -> Prop) st1 st2 st3 :
  (forall n, P n -> R n) -> (forall n, Q n -> R n) ->
  dfs_step h P st1 st2 -> dfs_step h Q st2 st3 -> dfs_step h R st1 st3.
Proof.
  intros HP HQ (new1 & E1 & V1 & N1 & _) (new2 & E2 & V2 & N2 & I3).
  exists (new1 ++ new2).
  split; [by rewrite E2, E1, app_assoc|]. split; [|split; [|done]].
  - intros n. rewrite V2, V1, elem_of_app. tauto.
  - intros n Hn. apply elem_of_app in Hn as [Hn|Hn].
    + split; [apply HP, N1, Hn | apply N1, Hn].
    + split; [apply HQ, N2, Hn|].
      intros Hv. apply (N2 n Hn). apply V1. by left.
Qed.

(** The loop over the children of a node, given the traversal of each
    child. *)
Lemma children_loop depth bound :
  (forall v st, v < bound -> dfs_inv h st ->
     (forall n, n ∈ st.1 -> n <= v -> n ∈ st.2) ->
     exists st', build_topo depth h v st = Some st'
       /\ dfs_step h (fun n => n <= v /\ reachable h v n) st st'
       /\ v ∈ st'.2) ->
  forall cs st,
    (forall c, c ∈ cs -> c < bound) ->
    dfs_inv h st ->
    (forall n, n ∈ st.1 -> n < bound -> n ∈ st.2) ->
    exists st',
      foldl (fun acc child =>
               match acc with
               | Some s => build_topo depth h child s
               | None => None
               end) (Some st) cs = Some st'
      /\ dfs_step h (fun n => n < bound /\ exists c, c ∈ cs /\ reachable h c n) st st'
      /\ (forall c, c ∈ cs -> c ∈ st'.2).
Proof.
  intros IH cs. induction cs as [|c cs IHcs]; intros st Hcs Hinv Hpend.
  - exists st. split; [done|]. split; [by apply dfs_step_refl|].
    intros c Hc. by apply elem_of_nil in Hc.
  - simpl.
    destruct (IH c st) as (st1 & E1 & S1 & Hc1); try done.
    { apply Hcs. by left. }
    { intros n Hn Hle. apply Hpend; [done|]. pose proof (Hcs c). 
      assert (c < bound) by (apply Hcs; by left). lia. }
    rewrite E1.
    assert (Hcb : c < bound) by (apply Hcs; by left).
    destruct (IHcs st1) as (st2 & E2 & S2 & Hc2).
    { intros c' Hc'. apply Hcs. by right. }
    { destruct S1 as (? & _ & _ & _ & I). exact I. }
    { destruct S1 as (new & E & V & N & I). intros n Hn Hlt.
      apply V in Hn as [Hn|Hn].
      - rewrite E. apply elem_of_app. left. by apply Hpend.
      - rewrite E. apply elem_of_app. by right. }
    exists st2. split; [done|]. split.
    + eapply dfs_step_trans; [| |exact S1|exact S2]; simpl.
      * intros n [Hle Hr]. split; [lia|]. exists c. split; [by left|done].
      * intros n [Hlt (c' & Hc' & Hr)]. split; [done|]. exists c'. split; [by right|done].
    + intros c' Hc'. apply elem_of_cons in Hc' as [->|Hc']; [|by apply Hc2].
      destruct S2 as (new & E & _). rewrite E. apply elem_of_app. by left.
Qed.

Lemma build_topo_step depth :
  forall v st, v < depth -> dfs_inv h st ->
    (forall n, n ∈ st.1 -> n <= v -> n ∈ st.2) ->
    exists st', build_topo depth h v st = Some st'
      /\ dfs_step h (fun n => n <= v /\ reachable h v n) st st'
      /\ v ∈ st'.2.
Proof.
  induction depth as [|depth IH]; intros v st Hv Hinv Hpend; [lia|].
  simpl. destruct (decide (v ∈ st.1)) as [Hin|Hnin].
  { exists st. split; [done|]. split; [by apply dfs_step_refl|]. by apply Hpend. }
  destruct (children_loop depth v) with (cs := _prev (node h v))
    (st := ({[v]} ∪ st.1, st.2)) as (st1 & E1 & S1 & Hc1).
  { intros c st0 Hc. apply IH. lia. }
  { intros c Hc. by apply (node_prev_lt h v c Hok). }
  { destruct Hinv as (Hsub & Hnd & Hord). split; [|done].
    intros n Hn. apply elem_of_union. right. by apply Hsub. }
  { simpl. intros n Hn Hlt. apply elem_of_union in Hn as [Hn|Hn].
    - apply elem_of_singleton in Hn. lia.
    - apply Hpend; [done|lia]. }
  rewrite E1. eexists. split; [done|]. simpl.
  destruct S1 as (new & E & V & N & (Hsub & Hnd & Hord)). simpl in *.
  assert (Hvt : v ∉ st1.2).
  { rewrite E. intros Hx. apply elem_of_app in Hx as [Hx|Hx].
    - apply Hnin. by apply Hinv.
    - apply N in Hx as [[Hlt _] _]. lia. }
  split; [|apply elem_of_app; right; by left].
  exists (new ++ [v]). simpl.
  split; [by rewrite E, app_assoc|]. split; [|split].
  - intros n. rewrite V, elem_of_union, elem_of_singleton, elem_of_app,
      list_elem_of_singleton. tauto.
  - intros n Hn. apply elem_of_app in Hn as [Hn|Hn].
    + apply N in Hn as [[Hlt (c & Hc & Hr)] Hx]. split; [split|].
      * lia.
      * by eapply reachable_step.
      * intros Hy. apply Hx. apply elem_of_union. by right.
    + apply list_elem_of_singleton in Hn as ->. split; [split|]; [lia|constructor|done].
  - split; [|split].
    + intros n Hn. apply elem_of_app in Hn as [Hn|Hn]; [by apply Hsub|].
      apply list_elem_of_singleton in Hn as ->. apply V. left.
      apply elem_of_union. left. by apply elem_of_singleton.
    + apply NoDup_app. split; [done|]. split; [|apply NoDup_singleton].
      intros x Hx Hx'. by apply list_elem_of_singleton in Hx' as ->.
    + intros i n o Hi Ho. apply lookup_app_Some in Hi as [Hi|[Hlen Hi]].
      * destruct (Hord i n o Hi Ho) as (j & Hj & Ej).
        exists j. split; [done|]. by apply lookup_app_l_Some.
      * apply list_lookup_singleton_Some in Hi as [Hi <-].
        apply Hc1 in Ho. apply list_elem_of_lookup in Ho as [j Ej].
        exists j. split; [|by apply lookup_app_l_Some].
        apply lookup_lt_Some in Ej. lia.
Qed.

End Traversal.

Lemma reachable_in_topo h root topo :
  root ∈ topo -> operands_first h topo ->
  forall n, reachable h root n -> n ∈ topo.
Proof.
  intros Hroot Hord n Hr. induction Hr as [|v c w Hc _ IH]; [done|].
  apply IH. apply list_elem_of_lookup in Hroot as [i Hi].
  destruct (Hord i v c Hi Hc) as (j & _ & Hj).
  apply list_elem_of_lookup. by exists j.
Qed.

Theorem topological_order (h : heap) (root : ident) :
  graph_ok h -> root < length h ->
  exists topo,
    topo_of h root = Some topo
    /\ NoDup topo
    /\ (forall n, n ∈ topo <-> reachable h root n)
    /\ (forall i n o,
          topo !! i = Some n -> o ∈ _prev (node h n) ->
          exists j, j < i /\ topo !! j = Some o).
Proof.
  intros Hok Hroot. unfold topo_of.
  destruct (build_topo_step h Hok (length h) root (∅, [])) as (st & E & S & Hin).
  - done.
  - split; [|split]; simpl.
    + intros n Hn. by apply elem_of_nil in Hn.
    + constructor.
    + intros i n o Hi. by rewrite lookup_nil in Hi.
  - simpl. intros n Hn. by apply elem_of_empty in Hn.
  - rewrite E. exists st.2. split; [done|].
    destruct S as (new & En & V & N & (Hsub & Hnd & Hord)). simpl in *.
    split; [done|]. split; [|done].
    intros n. split.
    + intros Hn. rewrite En in Hn. by apply N in Hn as [[_ Hr] _].
    + by apply reachable_in_topo.
Qed.

(** ** The sweep of a backward pass *)

Section Sweep.
Variable libm_pow : float -> float -> float.

Lemma sweep_frame nodes : forall (h h' : heap),
  sweep libm_pow nodes h = Ok (tt, h') ->
  same_structure h h'
  /\ forall i,
       (forall n, n ∈ nodes -> i ∉ rule_operands (_backward (node h n))) ->
       grad (node h' i) = grad (node h i).
Proof.
  induction nodes as [|n nodes IH]; intros h h' H.
  - injection H as <-. split; [apply same_structure_refl|done].
  - simpl in H. unfold bind in H.
    destruct (call_backward libm_pow n h) as [[[] h1]| |] eqn:E; try done.
    destruct (call_backward_frame _ _ _ _ E) as [S1 G1].
    destruct (IH _ _ H) as [S2 G2]. split.
    + by eapply same_structure_trans.
    + intros i Hi. rewrite G2, G1; [done| |].
      * apply Hi. by left.
      * intros m Hm. destruct S1 as [_ S1].
        destruct (structure_fields _ _ (S1 m)) as (_ & -> & _).
        apply Hi. by right.
Qed.


End Sweep.

(** ** The backward pass *)

Section Backward.
Variable libm_pow : float -> float -> float.

Lemma backward_unfold (h : heap) root topo :
  topo_of h root = Some topo ->
  backward libm_pow root h
  = sweep libm_pow (reverse topo) (alter (with_grad 1%float) root h).
Proof. unfold backward. by intros ->. Qed.

Lemma rule_after_seed (h : heap) root n :
  _backward (node (alter (with_grad 1%float) root h) n) = _backward (node h n).
Proof.
  by destruct (structure_fields _ _ (structure_alter_grad 1%float h root n))
    as (_ & -> & _).
Qed.


Lemma rule_operand_child (h : heap) n c :
  closures_ok h -> c ∈ rule_operands (_backward (node h n)) ->
  c ∈ _prev (node h n).
Proof.
  intros Hok Hc. unfold node in *.
  destruct (h !! n) as [v|] eqn:E; simpl in *.
  - by apply (Hok n v c E).
  - by apply elem_of_nil in Hc.
Qed.


(** The pass writes [grad] only, and only in nodes reachable from the
    root. *)
Theorem backward_frame (h h' : heap) root :
  graph_ok h -> closures_ok h -> root < length h ->
  backward libm_pow root h = Ok (tt, h') ->
  same_structure h h'
  /\ forall i, ~ reachable h root i -> grad (node h' i) = grad (node h i).
Proof.
  intros Hok Hcl Hroot H.
  destruct (topological_order h root Hok Hroot) as (topo & Et & _ & Hr & _).
  rewrite (backward_unfold _ _ _ Et) in H.
  destruct (sweep_frame _ _ _ _ H) as [S G]. split.
  - eapply same_structure_trans; [apply same_structure_alter_grad|exact S].
  - intros i Hi. rewrite G.
    + rewrite node_alter_ne; [done|]. intros ->. apply Hi. constructor.
    + intros n Hn Hc. rewrite rule_after_seed in Hc.
      apply elem_of_reverse, Hr in Hn. apply Hi.
      eapply reachable_trans; [exact Hn|].
      eapply reachable_step; [|constructor].
      by apply rule_operand_child.
Qed.


End Backward.

(** ** What the operations allocate *)

Section Operations.
Variable libm_pow : float -> float -> float.
Variable iter_swapped : ident -> ident -> bool.

Local Abbreviation cell := (cell iter_swapped).

Lemma elem_of_py_set c children :
  c ∈ py_set iter_swapped children <-> c ∈ children.
Proof.
  unfold py_set.
  destruct children as [|a [|b [|? ?]]]; try apply elem_of_remove_dups.
  destruct (decide (a = b)) as [->|Hne].
  - rewrite !elem_of_cons. tauto.
  - destruct (iter_swapped a b); rewrite !elem_of_cons; tauto.
Qed.

Lemma NoDup_py_set children : NoDup (py_set iter_swapped children).
Proof.
  unfold py_set.
  destruct children as [|a [|b [|? ?]]]; try apply NoDup_remove_dups.
  destruct (decide (a = b)) as [->|Hne].
  - apply NoDup_singleton.
  - destruct (iter_swapped a b);
      (apply NoDup_cons; split;
       [rewrite list_elem_of_singleton; congruence | apply NoDup_singleton]).
Qed.

Lemma alloc_with_rule d children op r (h : heap) :
  (out <- __init__ iter_swapped d children op ;;
   set_backward out r ;;; ret out) h
  = Ok (length h, h ++ [cell d r children op]).
Proof.
  unfold bind, __init__, set_backward, ret. by rewrite alter_alloc.
Qed.

Lemma init_eq d children op (h : heap) :
  __init__ iter_swapped d children op h
  = Ok (length h, h ++ [cell d NoRule children op]).
Proof. done. Qed.

Lemma as_value_eq other (h : heap) :
  as_value iter_swapped other h
  = Ok (operand_node h other, operand_heap h other).
Proof. by destruct other. Qed.

Lemma operand_heap_data (h : heap) other :
  operand_in h other ->
  data (node (operand_heap h other) (operand_node h other))
  = operand_data h other.
Proof. destruct other; simpl; [done|]. intros _. by rewrite node_alloc. Qed.

Lemma operand_heap_old (h : heap) other v :
  v < length h -> node (operand_heap h other) v = node h v.
Proof. destruct other; simpl; [done|]. apply node_app_l. Qed.

Lemma add_eq self other (h : heap) :
  self < length h -> operand_in h other ->
  __add__ iter_swapped self other h
  = Ok (length (operand_heap h other),
        operand_heap h other
          ++ [cell (data (node h self) + operand_data h other)%float
                (AddRule self (operand_node h other))
                [self; operand_node h other] OpAdd]).
Proof.
  intros Hs Ho. unfold __add__. unfold bind at 1. rewrite as_value_eq.
  unfold bind at 1 2. cbn [get_data].
  rewrite alloc_with_rule, operand_heap_data, operand_heap_old by done. done.
Qed.

Lemma mul_eq self other (h : heap) :
  self < length h -> operand_in h other ->
  __mul__ iter_swapped self other h
  = Ok (length (operand_heap h other),
        operand_heap h other
          ++ [cell (data (node h self) * operand_data h other)%float
                (MulRule self (operand_node h other))
                [self; operand_node h other] OpMul]).
Proof.
  intros Hs Ho. unfold __mul__. unfold bind at 1. rewrite as_value_eq.
  unfold bind at 1 2. cbn [get_data].
  rewrite alloc_with_rule, operand_heap_data, operand_heap_old by done. done.
Qed.

Lemma pow_eq self other (h : heap) :
  __pow__ libm_pow iter_swapped self (PyNum other) h
  = match py_pow libm_pow (data (node h self)) other with
    | Ok y => Ok (length h, h ++ [cell y (PowRule self other) [self] (OpPow other)])
    | Raise e => Raise e
    | Beyond l => Beyond l
    end.
Proof.
  unfold __pow__. unfold bind at 1 2. cbn [get_data lift].
  destruct (py_pow _ _ _); try done. apply alloc_with_rule.
Qed.

Lemma relu_eq self (h : heap) :
  relu iter_swapped self h
  = Ok (length h,
        h ++ [cell (if data (node h self) <? 0 then 0 else data (node h self))%float
                (ReluRule self) [self] OpReLU]).
Proof. unfold relu. unfold bind at 1. cbn [get_data]. apply alloc_with_rule. Qed.

Lemma leaky_relu_eq self alpha (h : heap) :
  leaky_relu iter_swapped self alpha h
  = Ok (length h,
        h ++ [cell (if 0 <? data (node h self) then data (node h self)
                    else alpha * data (node h self))%float
                (LeakyRule self alpha) [self] OpLeakyReLU]).
Proof.
  unfold leaky_relu. unfold bind at 1. cbn [get_data]. apply alloc_with_rule.
Qed.

End Operations.

(** ** The invariants of the heap *)

Section Invariants.
Variable libm_pow : float -> float -> float.
Variable iter_swapped : ident -> ident -> bool.

Local Abbreviation cell := (cell iter_swapped).

Lemma heap_ok_alloc (h : heap) d r children op :
  heap_ok h ->
  (forall c, c ∈ children -> c < length h) ->
  (forall c, c ∈ rule_operands r -> c ∈ children) ->
  heap_ok (h ++ [cell d r children op]).
Proof.
  intros [Hg Hc] Hch Hr. split.
  - intros i n Hi. apply lookup_app_Some in Hi as [Hi|[Hlen Hi]]; [by apply Hg|].
    apply list_lookup_singleton_Some in Hi as [Hi <-].
    assert (i = length h) as -> by lia. split; simpl.
    + intros c Hx. apply Hch. by apply elem_of_py_set in Hx.
    + intros c Hx. by apply Hch, Hr.
  - intros i n c Hi.
    apply lookup_app_Some in Hi as [Hi|[Hlen Hi]]; [by apply (Hc i n c)|].
    apply list_lookup_singleton_Some in Hi as [Hi <-]. simpl.
    intros Hx. by apply elem_of_py_set, Hr.
Qed.

Lemma extends_alloc (h : heap) n : extends h (length h) (h ++ [n]).
Proof. exists [n]. rewrite length_app. simpl. split; [done|]. lia. Qed.

Lemma extends_trans h1 o1 h2 o2 h3 :
  extends h1 o1 h2 -> extends h2 o2 h3 -> extends h1 o2 h3.
Proof.
  intros (l1 & -> & L1 & B1) (l2 & -> & L2 & B2).
  exists (l1 ++ l2). rewrite app_assoc. split; [done|]. split; [done|].
  rewrite length_app in *. lia.
Qed.

Lemma operand_heap_ok (h : heap) other :
  heap_ok h -> heap_ok (operand_heap h other).
Proof.
  intros Hok. destruct other as [v|x]; [done|].
  apply (heap_ok_alloc h x NoRule [] OpNone Hok); intros c Hc;
    by apply elem_of_nil in Hc.
Qed.

Lemma operand_node_lt (h : heap) other :
  operand_in h other -> operand_node h other < length (operand_heap h other).
Proof. destruct other; simpl; [done|]. rewrite length_app. simpl. lia. Qed.

Lemma operand_heap_length (h : heap) other :
  length h <= length (operand_heap h other).
Proof. destruct other; simpl; [done|]. rewrite length_app. lia. Qed.

Lemma operand_heap_prefix (h : heap) other :
  exists l, operand_heap h other = h ++ l.
Proof. destruct other; simpl; [exists []; by rewrite app_nil_r | by eexists]. Qed.

(** The two binary operators, which differ in the cell only. *)
Lemma binary_step (h : heap) self other d r op :
  heap_ok h -> self < length h -> operand_in h other ->
  (forall c, c ∈ rule_operands r -> c ∈ [self; operand_node h other]) ->
  let h' := operand_heap h other ++ [cell d r [self; operand_node h other] op] in
  heap_ok h' /\ extends h (length (operand_heap h other)) h'.
Proof.
  intros Hok Hs Ho Hr h'. split.
  - apply heap_ok_alloc; [by apply operand_heap_ok| |done].
    intros c Hc. pose proof (operand_heap_length h other).
    pose proof (operand_node_lt h other Ho).
    rewrite !elem_of_cons, elem_of_nil in Hc. destruct Hc as [->|[->|[]]]; lia.
  - destruct (operand_heap_prefix h other) as [l El]. unfold h'.
    exists (l ++ [cell d r [self; operand_node h other] op]).
    rewrite app_assoc, <- El, length_app. simpl.
    split; [done|]. split; [lia|]. apply operand_heap_length.
Qed.

Lemma unary_step (h : heap) self d r op :
  heap_ok h -> self < length h ->
  (forall c, c ∈ rule_operands r -> c ∈ [self]) ->
  heap_ok (h ++ [cell d r [self] op])
  /\ extends h (length h) (h ++ [cell d r [self] op]).
Proof.
  intros Hok Hs Hr. split; [|apply extends_alloc].
  apply heap_ok_alloc; [done| |done].
  intros c Hc. apply list_elem_of_singleton in Hc. lia.
Qed.

Lemma add_step (h : heap) self other out h' :
  heap_ok h -> self < length h -> operand_in h other ->
  __add__ iter_swapped self other h = Ok (out, h') ->
  heap_ok h' /\ extends h out h'.
Proof.
  intros Hok Hs Ho. rewrite add_eq by done. intros [= <- <-].
  by apply binary_step.
Qed.

Lemma mul_step (h : heap) self other out h' :
  heap_ok h -> self < length h -> operand_in h other ->
  __mul__ iter_swapped self other h = Ok (out, h') ->
  heap_ok h' /\ extends h out h'.
Proof.
  intros Hok Hs Ho. rewrite mul_eq by done. intros [= <- <-].
  by apply binary_step.
Qed.

Lemma pow_step (h : heap) self other out h' :
  heap_ok h -> self < length h ->
  __pow__ libm_pow iter_swapped self other h = Ok (out, h') ->
  heap_ok h' /\ extends h out h'.
Proof.
  intros Hok Hs. destruct other as [n| |]; try done.
  rewrite pow_eq. destruct (py_pow _ _ _) as [y| |]; try done.
  intros [= <- <-]. by apply unary_step.
Qed.

Lemma extends_lt h out h' v : extends h out h' -> v < length h -> v < length h'.
Proof. intros (l & -> & _ & _) Hv. rewrite length_app. lia. Qed.

Lemma extends_out h out h' : extends h out h' -> out < length h'.
Proof. intros (l & _ & L & _). lia. Qed.

(** Every call keeps the invariants and appends. *)
Lemma perform_step (h : heap) c out h' :
  heap_ok h -> args_in h c ->
  perform libm_pow iter_swapped c h = Ok (out, h') ->
  heap_ok h' /\ extends h out h'.
Proof.
  intros Hok Ha H. destruct c; simpl in Ha, H.
  - rewrite init_eq in H. injection H as <- <-. split; [|apply extends_alloc].
    apply heap_ok_alloc; [done| |]; intros c Hc; by apply elem_of_nil in Hc.
  - destruct Ha. by eapply add_step.
  - by apply (add_step h self (Raw other) out h').
  - destruct Ha. by eapply mul_step.
  - by apply (mul_step h self (Raw other) out h').
  - by eapply pow_step.
  - destruct Ha as [Hs Ho]. unfold __truediv__ in H. unfold bind at 1 in H.
    rewrite as_value_eq in H. unfold bind in H.
    destruct (__pow__ _ _ _ _ _) as [[p h1]| |] eqn:E; try done.
    apply pow_step in E as [Hok1 X1];
      [|by apply operand_heap_ok|by apply operand_node_lt].
    destruct (operand_heap_prefix h other) as [l El].
    assert (X0 : extends h p h1).
    { destruct X1 as (l1 & -> & L & B). exists (l ++ l1).
      rewrite El, app_assoc in *. split; [done|]. split; [done|].
      rewrite length_app in B. lia. }
    apply mul_step in H as [Hok2 X2]; try done.
    + split; [done|]. by eapply extends_trans.
    + by eapply extends_lt.
    + simpl. by eapply extends_out.
  - unfold __rtruediv__, bind in H.
    destruct (__pow__ _ _ _ _ _) as [[p h1]| |] eqn:E; try done.
    apply pow_step in E as [Hok1 X1]; try done.
    unfold __rmul__ in H.
    apply mul_step in H as [Hok2 X2]; try done.
    + split; [done|]. by eapply extends_trans.
    + by eapply extends_out.
  - by apply (mul_step h self (Raw (-1)%float) out h').
  - destruct Ha as [Hs Ho]. destruct other as [o|x]; simpl in H.
    + unfold bind in H.
      destruct (__neg__ _ _ _) as [[n h1]| |] eqn:E; try done.
      unfold __neg__ in E.
      apply mul_step in E as [Hok1 X1]; try done.
      apply add_step in H as [Hok2 X2]; try done.
      * split; [done|]. by eapply extends_trans.
      * by eapply extends_lt.
      * simpl. by eapply extends_out.
    + by apply (add_step h self (Raw (- x)%float) out h').
  - unfold __rsub__, bind in H.
    destruct (__neg__ _ _ _) as [[n h1]| |] eqn:E; try done.
    unfold __neg__ in E.
    apply mul_step in E as [Hok1 X1]; try done.
    unfold __radd__ in H.
    apply add_step in H as [Hok2 X2]; try done.
    + split; [done|]. by eapply extends_trans.
    + by eapply extends_out.
  - rewrite relu_eq in H. injection H as <- <-. by apply unary_step.
  - rewrite leaky_relu_eq in H. injection H as <- <-. by apply unary_step.
Qed.

End Invariants.

(** ** Heaps built by programs *)

Section Built.
Variable libm_pow : float -> float -> float.
Variable iter_swapped : ident -> ident -> bool.

Local Abbreviation built := (built libm_pow iter_swapped).

Lemma heap_ok_same_structure (h h' : heap) :
  same_structure h h' -> heap_ok h -> heap_ok h'.
Proof.
  intros [L S] [Hg Hc]. split.
  - intros i n Hi. pose proof (lookup_lt_Some _ _ _ Hi) as Hlt.
    destruct (structure_fields _ _ (S i)) as (_ & Eb & Ep).
    rewrite (node_lookup _ _ _ Hi) in Eb, Ep.
    rewrite L in Hlt. destruct (Hg i _ (lookup_node h i Hlt)) as [H1 H2].
    split; intros c; rewrite ?Eb, ?Ep; [apply H1|apply H2].
  - intros i n c Hi. pose proof (lookup_lt_Some _ _ _ Hi) as Hlt.
    destruct (structure_fields _ _ (S i)) as (_ & Eb & Ep).
    rewrite (node_lookup _ _ _ Hi) in Eb, Ep.
    rewrite L in Hlt. rewrite Eb, Ep. apply (Hc i _ c (lookup_node h i Hlt)).
Qed.

Lemma heap_ok_empty : heap_ok [].
Proof. split; [intros i n Hi|intros i n c Hi]; by rewrite lookup_nil in Hi. Qed.

Lemma built_heap_ok (h : heap) : built h -> heap_ok h.
Proof.
  induction 1 as [|h c out h' _ IH Ha Hp|h root h' _ IH Hr Hb].
  - apply heap_ok_empty.
  - by destruct (perform_step _ _ _ _ _ _ IH Ha Hp).
  - destruct IH as [Hg Hc].
    destruct (backward_frame _ _ _ _ Hg Hc Hr Hb) as [S _].
    by apply (heap_ok_same_structure h).
Qed.


(** X3.  A call never touches the nodes that exist: it appends one node or
    more, returns the last, and every older node reads as before. *)
Theorem calls_only_append (h : heap) c out h' :
  built h -> args_in h c ->
  perform libm_pow iter_swapped c h = Ok (out, h') ->
  length h <= out /\ length h' = S out
  /\ forall v, v < length h -> node h' v = node h v.
Proof.
  intros Hb Ha Hp.
  destruct (perform_step _ _ _ _ _ _ (built_heap_ok h Hb) Ha Hp)
    as [_ (l & -> & L & B)].
  split; [done|]. split; [done|]. intros v Hv. by apply node_app_l.
Qed.




End Built.

(** ** Powers and quotients *)

Section Powers.
Variable libm_pow : float -> float -> float.
Variable iter_swapped : ident -> ident -> bool.

Lemma float_of_int_raises z e : float_of_int z = Raise e -> e = OverflowError.
Proof.
  unfold float_of_int. destruct (binary_normalize _ _ _ _ _); congruence.
Qed.

Lemma float_pow_raises x y e :
  float_pow libm_pow x y = Raise e ->
  e = ZeroDivisionError \/ e = OverflowError.
Proof.
  unfold float_pow.
  repeat match goal with
         | |- context [if ?b then _ else _] => destruct b
         end; intros [= <-] || intros [=]; auto.
Qed.

Lemma py_pow_raises x other e :
  py_pow libm_pow x other = Raise e ->
  e = ZeroDivisionError \/ e = OverflowError.
Proof.
  destruct other as [z|y]; simpl; [|apply float_pow_raises].
  destruct (float_of_int z) as [w| |] eqn:E.
  - apply float_pow_raises.
  - intros [= <-]. right. by eapply float_of_int_raises.
  - done.
Qed.

(** X6.  [__pow__] fails its assertion exactly on an exponent that is not a
    number, and then before it reads or allocates anything. *)
Theorem pow_asserts_number (h : heap) self other :
  __pow__ libm_pow iter_swapped self other h = Raise AssertionError
  <-> forall n, other <> PyNum n.
Proof.
  split.
  - intros H n ->. rewrite pow_eq in H.
    destruct (py_pow _ _ _) as [y|e|] eqn:E; try done.
    injection H as ->. by destruct (py_pow_raises _ _ _ E).
  - intros H. destruct other as [n| |]; [by destruct (H n)|done|done].
Qed.





End Powers.

(** ** The values of the nodes *)

Section Values.
Variable libm_pow : float -> float -> float.
Variable iter_swapped : ident -> ident -> bool.

Lemma value_of_add (h : heap) self other :
  self < length h -> operand_in h other ->
  value_of (__add__ iter_swapped self other h)
  = Ok (data (node h self) + operand_data h other)%float.
Proof. intros Hs Ho. rewrite add_eq by done. simpl. by rewrite node_alloc. Qed.

Lemma value_of_mul (h : heap) self other :
  self < length h -> operand_in h other ->
  value_of (__mul__ iter_swapped self other h)
  = Ok (data (node h self) * operand_data h other)%float.
Proof. intros Hs Ho. rewrite mul_eq by done. simpl. by rewrite node_alloc. Qed.

Lemma value_of_neg (h : heap) self :
  self < length h ->
  value_of (__neg__ iter_swapped self h) = Ok (- data (node h self))%float.
Proof.
  intros Hs. unfold __neg__. rewrite value_of_mul by done.
  cbn [operand_data]. by rewrite fmul_m1_r.
Qed.

Lemma neg_eq (h : heap) self :
  self < length h ->
  __neg__ iter_swapped self h
  = Ok (S (length h),
        (h ++ [mkValue (-1) 0 NoRule [] OpNone ""])
          ++ [cell iter_swapped (- data (node h self))%float
                (MulRule self (length h)) [self; length h] OpMul]).
Proof.
  intros Hs. unfold __neg__. rewrite mul_eq by done.
  cbn [operand_heap operand_data operand_node]. rewrite fmul_m1_r.
  by rewrite length_app, Nat.add_1_r.
Qed.

(** X9.  The sum and the product of two nodes do not depend on the order of
    the operands. *)
Theorem sums_and_products_commute (h : heap) a b :
  a < length h -> b < length h ->
  value_of (__add__ iter_swapped a (Node b) h)
  = value_of (__add__ iter_swapped b (Node a) h)
  /\ value_of (__mul__ iter_swapped a (Node b) h)
     = value_of (__mul__ iter_swapped b (Node a) h).
Proof.
  intros Ha Hb. rewrite !value_of_add, !value_of_mul by done.
  cbn [operand_data]. by rewrite fadd_comm, fmul_comm.
Qed.

Lemma value_of_sub (h : heap) a other :
  a < length h -> operand_in h other ->
  value_of (__sub__ iter_swapped a other h)
  = Ok (data (node h a) - operand_data h other)%float.
Proof.
  intros Ha Ho. destruct other as [o|x]; cbn [__sub__ operand_data].
  - unfold bind. rewrite neg_eq by done. rewrite value_of_add by len.
    cbn [operand_data]. read_heap. by rewrite fadd_opp_r.
  - rewrite value_of_add by done. cbn [operand_data]. by rewrite fadd_opp_r.
Qed.

Lemma value_of_rsub (h : heap) a c :
  a < length h ->
  value_of (__rsub__ iter_swapped a c h) = Ok (c - data (node h a))%float.
Proof.
  intros Ha. unfold __rsub__, bind, __radd__. rewrite neg_eq by done.
  rewrite value_of_add by len. cbn [operand_data].
  read_heap. by rewrite fadd_comm, fadd_opp_r.
Qed.

(** X10.  The negation of a node holds the IEEE negation of its data, so two
    negations give the data back bit for bit; a difference holds the IEEE
    difference, also with the number on the left. *)
Theorem negation_and_subtraction (h : heap) a other c :
  a < length h -> operand_in h other ->
  value_of (__neg__ iter_swapped a h) = Ok (- data (node h a))%float
  /\ value_of ((n <- __neg__ iter_swapped a ;; __neg__ iter_swapped n) h)
     = Ok (data (node h a))
  /\ value_of (__sub__ iter_swapped a other h)
     = Ok (data (node h a) - operand_data h other)%float
  /\ value_of (__rsub__ iter_swapped a c h) = Ok (c - data (node h a))%float.
Proof.
  intros Ha Ho. split; [by apply value_of_neg|].
  split; [|split; [by apply value_of_sub|by apply value_of_rsub]].
  unfold bind. rewrite neg_eq by done. rewrite value_of_neg by len.
  rewrite node_alloc by len. cbn [cell data]. by rewrite fopp_involutive.
Qed.

(** X11.  A number on the left gives the node that wrapping it into a leaf
    first gives, in value and in failure: [c + x] is [Value(c) + x], and
    so for [*], [-] and [/]. *)
Theorem reflected_forms_agree (h : heap) x c :
  x < length h ->
  value_of (__radd__ iter_swapped x c h)
  = value_of ((v <- leaf c ;; __add__ iter_swapped v (Node x)) h)
  /\ value_of (__rmul__ iter_swapped x c h)
     = value_of ((v <- leaf c ;; __mul__ iter_swapped v (Node x)) h)
  /\ value_of (__rsub__ iter_swapped x c h)
     = value_of ((v <- leaf c ;; __sub__ iter_swapped v (Node x)) h)
  /\ value_of (__rtruediv__ libm_pow iter_swapped x c h)
     = value_of ((v <- leaf c ;;
                  __truediv__ libm_pow iter_swapped v (Node x)) h).
Proof.
  intros Hx.
  rewrite value_of_rsub by done. unfold __radd__, __rmul__.
  rewrite value_of_add, value_of_mul by done. cbn [operand_data].
  unfold bind at 1 2 3 4, leaf. rewrite init_eq.
  rewrite value_of_add, value_of_mul by len. cbn [operand_data].
  rewrite value_of_sub by len. cbn [operand_data].
  rewrite node_alloc, node_app_l by done. cbn [cell data].
  split; [by rewrite fadd_comm|]. split; [by rewrite fmul_comm|].
  split; [done|].
  unfold __rtruediv__, __truediv__, bind. cbn [as_value ret].
  rewrite !pow_eq. rewrite node_app_l by done.
  destruct (py_pow libm_pow (data (node h x)) (NInt (-1))) as [y| |]; try done.
  unfold __rmul__. rewrite !value_of_mul by len. cbn [operand_data].
  read_heap. by rewrite fmul_comm.
Qed.

End Values.

(** ** The closures of the operations *)

Lemma fltb_asym (x : float) : (x <? 0)%float = true -> (0 <? x)%float = false.
Proof.
  rewrite !ltb_spec. change (Prim2SF 0) with (S754_zero false).
  unfold SFltb. destruct (Prim2SF x) as [s|s| |s m e]; simpl; try done;
    by destruct s.
Qed.

Section ClosureTheorems.
Variable libm_pow : float -> float -> float.
Variable iter_swapped : ident -> ident -> bool.

(** X12.  The closure of a sum adds the gradient of the sum to the gradient of
    each operand, and so twice to a node added to itself. *)
Theorem add_closure_accumulates (h : heap) a b g :
  a < length h -> b < length h ->
  exists out h1,
    __add__ iter_swapped a (Node b) h = Ok (out, h1)
    /\ grad_after a ((set_grad out g ;;; call_backward libm_pow out) h1)
       = Ok (if decide (a = b) then grad (node h a) + g + g
             else grad (node h a) + g)%float
    /\ grad_after b ((set_grad out g ;;; call_backward libm_pow out) h1)
       = Ok (if decide (a = b) then grad (node h a) + g + g
             else grad (node h b) + g)%float.
Proof.
  intros Ha Hb. rewrite add_eq by done. cbn [operand_heap operand_node operand_data].
  do 2 eexists. split; [done|]. unfold bind, set_grad.
  rewrite (call_backward_add _ _ _ a b) by (by read_heap).
  cbn zeta. unfold grad_after.
  destruct (decide (a = b)) as [->|Hne]; read_heap; by rewrite !fmul_1_l.
Qed.

(** X13.  The closure of a product adds to the gradient of each operand the
    gradient of the product times the data of the other operand. *)
Theorem mul_closure_accumulates (h : heap) a b g :
  a < length h -> b < length h ->
  exists out h1,
    __mul__ iter_swapped a (Node b) h = Ok (out, h1)
    /\ grad_after a ((set_grad out g ;;; call_backward libm_pow out) h1)
       = Ok (if decide (a = b)
             then grad (node h a) + data (node h a) * g + data (node h a) * g
             else grad (node h a) + data (node h b) * g)%float
    /\ grad_after b ((set_grad out g ;;; call_backward libm_pow out) h1)
       = Ok (if decide (a = b)
             then grad (node h a) + data (node h a) * g + data (node h a) * g
             else grad (node h b) + data (node h a) * g)%float.
Proof.
  intros Ha Hb. rewrite mul_eq by done. cbn [operand_heap operand_node operand_data].
  do 2 eexists. split; [done|]. unfold bind, set_grad.
  rewrite (call_backward_mul _ _ _ a b) by (by read_heap).
  cbn zeta. unfold grad_after.
  destruct (decide (a = b)) as [->|Hne]; by read_heap.
Qed.

(** X14.  [relu] never yields a negative number, applying it twice changes
    nothing, and its closure lets the gradient through exactly when the
    input is positive; otherwise it adds the gradient times zero. *)
Theorem relu_clamps_and_gates (h : heap) a g :
  a < length h ->
  exists out h1,
    relu iter_swapped a h = Ok (out, h1)
    /\ (data (node h1 out) <? 0)%float = false
    /\ value_of (relu iter_swapped out h1) = Ok (data (node h1 out))
    /\ grad_after a ((set_grad out g ;;; call_backward libm_pow out) h1)
       = Ok (if 0 <? data (node h a) then grad (node h a) + g
             else grad (node h a) + 0 * g)%float.
Proof.
  intros Ha. rewrite relu_eq. do 2 eexists. split; [done|].
  rewrite node_alloc by done. cbn [cell data].
  assert (Hneg : ((if data (node h a) <? 0 then 0 else data (node h a)) <? 0)%float
                 = false).
  { destruct (data (node h a) <? 0)%float eqn:E; done. }
  split; [done|]. split.
  - rewrite relu_eq. cbn [value_of]. rewrite !node_alloc by len.
    cbn [cell data]. by rewrite Hneg.
  - unfold bind, set_grad.
    rewrite (call_backward_relu _ _ _ a) by (by read_heap).
    unfold grad_after. read_heap.
    destruct (data (node h a) <? 0)%float eqn:E.
    + rewrite (fltb_asym _ E). done.
    + destruct (0 <? data (node h a))%float; by rewrite ?fmul_1_l.
Qed.

(** X15.  On a positive input [leaky_relu] is [relu] whatever [alpha] is, and
    with [alpha = 1] it is the identity: the data of the input, and a
    closure that adds the gradient unchanged. *)
Theorem leaky_relu_positive_and_unit_slope (h : heap) a alpha g :
  a < length h ->
  ((0 <? data (node h a))%float = true ->
   value_of (leaky_relu iter_swapped a alpha h)
   = value_of (relu iter_swapped a h))
  /\ exists out h1,
      leaky_relu iter_swapped a 1 h = Ok (out, h1)
      /\ data (node h1 out) = data (node h a)
      /\ grad_after a ((set_grad out g ;;; call_backward libm_pow out) h1)
         = Ok (grad (node h a) + g)%float.
Proof.
  intros Ha. split.
  - intros Hp. rewrite leaky_relu_eq, relu_eq. cbn [value_of].
    rewrite !node_alloc by done. cbn [cell data]. rewrite Hp.
    destruct (data (node h a) <? 0)%float eqn:E; [|done].
    by rewrite (fltb_asym _ E) in Hp.
  - rewrite leaky_relu_eq. do 2 eexists. split; [done|].
    rewrite node_alloc by done. cbn [cell data]. split.
    + destruct (0 <? data (node h a))%float; by rewrite ?fmul_1_l.
    + unfold bind, set_grad.
      rewrite (call_backward_leaky _ _ _ a 1%float) by (by read_heap).
      unfold grad_after. read_heap.
      destruct (0 <? _)%float; by rewrite fmul_1_l.
Qed.

End ClosureTheorems.

(** * The network classes *)

(** ** [zero_grad] *)

(** X16.  [zero_grad] sets the gradient of every parameter to [0.0] and changes
    nothing else: the other nodes, among them every intermediate node of
    a graph built from the parameters, keep the gradient they had. *)
Theorem zero_grad_resets_only_parameters (parameters : list ident) (h : heap) :
  exists h',
    nn.zero_grad parameters h = Ok (tt, h')
    /\ length h' = length h
    /\ (forall i, data (node h' i) = data (node h i)
                  /\ _backward (node h' i) = _backward (node h i)
                  /\ _prev (node h' i) = _prev (node h i))
    /\ (forall p, p ∈ parameters -> p < length h ->
          grad (node h' p) = 0%float)
    /\ (forall i, i ∉ parameters -> grad (node h' i) = grad (node h i)).
Proof.
  revert h. induction parameters as [|p ps IH]; intros h.
  - exists h. split; [done|]. split; [done|]. split; [done|]. split; [|done].
    intros p Hp. by apply elem_of_nil in Hp.
  - destruct (IH (alter (with_grad 0%float) p h)) as (h' & E & L & S & Z & F).
    exists h'. split; [by simpl; unfold bind, set_grad; rewrite E|].
    rewrite length_alter in L. split; [done|]. split; [|split].
    + intros i. destruct (S i) as (-> & -> & ->).
      apply structure_fields, structure_alter_grad.
    + intros q Hq Hlt. destruct (decide (q ∈ ps)) as [Hin|Hnin].
      * apply Z; [done|]. by rewrite length_alter.
      * rewrite F by done. apply elem_of_cons in Hq as [->|Hq]; [|done].
        by rewrite node_alter_eq.
    + intros i Hi. apply not_elem_of_cons in Hi as [Hne Hi].
      rewrite F by done. by rewrite node_alter_ne.
Qed.

(** ** The constructors *)

Section Constructors.
Variable uniform : nat -> float.

Lemma leaf_eq d (h : heap) : leaf d h = Ok (length h, h ++ [leaf_cell d]).
Proof. done. Qed.

Lemma fresh_leaves_refl (h : heap) : fresh_leaves h [] h.
Proof. exists []. by rewrite app_nil_r. Qed.

Lemma fresh_leaves_trans (h1 h2 h3 : heap) ps qs :
  fresh_leaves h1 ps h2 -> fresh_leaves h2 qs h3 ->
  fresh_leaves h1 (ps ++ qs) h3.
Proof.
  intros (l1 & -> & -> & F1) (l2 & -> & -> & F2). exists (l1 ++ l2).
  split; [by rewrite app_assoc|]. split; [|by apply Forall_app].
  rewrite !length_app, seq_app. done.
Qed.

Lemma fresh_leaves_leaf d (h : heap) :
  fresh_leaves h [length h] (h ++ [leaf_cell d]).
Proof. exists [leaf_cell d]. split; [done|]. split; [done|]. by repeat constructor. Qed.

Lemma draw_weights_eq nin : forall k (h : heap),
  nn.draw_weights uniform k nin h
  = Ok (seq (length h) nin,
        h ++ map (fun i => leaf_cell (uniform i)) (seq k nin)).
Proof.
  induction nin as [|nin IH]; intros k h; simpl.
  - by rewrite app_nil_r.
  - unfold bind. rewrite leaf_eq, IH. unfold ret.
    rewrite length_app, Nat.add_1_r, <- app_assoc. done.
Qed.

Lemma Neuron_init_eq k nin nonlin (h : heap) :
  nn.Neuron_init uniform k nin nonlin h
  = Ok ((nn.mkNeuron (seq (length h) nin) (length h + nin) nonlin, k + nin),
        h ++ map (fun i => leaf_cell (uniform i)) (seq k nin) ++ [leaf_cell 0]).
Proof.
  unfold nn.Neuron_init, bind. rewrite draw_weights_eq, leaf_eq. unfold ret.
  rewrite length_app, length_map, length_seq, <- app_assoc. done.
Qed.

Lemma Neuron_init_fresh k nin nonlin (h : heap) :
  let n := nn.mkNeuron (seq (length h) nin) (length h + nin) nonlin in
  let h' := h ++ map (fun i => leaf_cell (uniform i)) (seq k nin)
              ++ [leaf_cell 0] in
  fresh_leaves h (nn.Neuron_parameters n) h'
  /\ length h' = length h + nin + 1.
Proof.
  cbn zeta. split.
  - unfold nn.Neuron_parameters. cbn [nn.w nn.b]. eexists. split; [done|].
    rewrite length_app, length_map, length_seq. simpl. split.
    + by rewrite seq_app.
    + apply Forall_app. split; [|by repeat constructor].
      apply Forall_map, Forall_forall. intros i _. by repeat constructor.
  - rewrite !length_app, length_map, length_seq. simpl. lia.
Qed.

(** X17.  [Neuron(nin, nonlin)] allocates [nin + 1] leaves and nothing else:
    the weights, which hold the next [nin] draws in their order, and then
    the bias, which holds zero.  [parameters()] lists exactly these new
    nodes, in the order of allocation. *)
Theorem neuron_init_allocates k nin nonlin (h : heap) :
  exists n h',
    nn.Neuron_init uniform k nin nonlin h = Ok ((n, k + nin), h')
    /\ nn.nonlinear n = nonlin
    /\ length (nn.w n) = nin
    /\ fresh_leaves h (nn.Neuron_parameters n) h'
    /\ length h' = length h + nin + 1
    /\ (forall i wi, nn.w n !! i = Some wi ->
          data (node h' wi) = uniform (k + i))
    /\ data (node h' (nn.b n)) = 0%float.
Proof.
  rewrite Neuron_init_eq. do 2 eexists. split; [done|].
  destruct (Neuron_init_fresh k nin nonlin h) as [F L].
  cbn [nn.nonlinear nn.w nn.b].
  split; [done|]. split; [by rewrite length_seq|].
  split; [done|]. split; [done|]. split.
  - intros i wi Hi. apply lookup_seq in Hi as [-> Hi].
    rewrite app_assoc, node_app_l by (rewrite length_app, length_map, length_seq; lia).
    unfold node. rewrite lookup_app_r, Nat.add_comm, Nat.add_sub by lia.
    rewrite list_lookup_fmap, lookup_seq_lt by done. done.
  - rewrite app_assoc. by rewrite node_alloc by (rewrite length_app, length_map, length_seq; lia).
Qed.

Lemma make_neurons_spec nin nonlin count : forall k (h : heap),
  exists ns h',
    nn.make_neurons uniform k nin nonlin count h
    = Ok ((ns, k + count * nin), h')
    /\ length ns = count
    /\ Forall (fun n => nn.nonlinear n = nonlin /\ length (nn.w n) = nin) ns
    /\ fresh_leaves h (concat (map nn.Neuron_parameters ns)) h'
    /\ length h' = length h + count * (nin + 1).
Proof.
  induction count as [|count IH]; intros k h.
  - exists [], h. simpl. rewrite Nat.add_0_r.
    split; [done|]. split; [done|]. split; [done|].
    split; [apply fresh_leaves_refl|lia].
  - destruct (Neuron_init_fresh k nin nonlin h) as [F1 L1].
    pose proof (Neuron_init_eq k nin nonlin h) as E1.
    set (n := nn.mkNeuron (seq (length h) nin) (length h + nin) nonlin) in *.
    set (h1 := h ++ _) in *.
    assert (Hnl : nn.nonlinear n = nonlin) by done.
    assert (Hw : length (nn.w n) = nin) by (by cbn; rewrite length_seq).
    destruct (IH (k + nin) h1) as (ns & h2 & E2 & Hlen & Hall & F2 & L2).
    exists (n :: ns), h2. simpl. unfold bind. rewrite E1. cbn [fst snd].
    rewrite E2. unfold ret. cbn [fst snd].
    split; [do 3 f_equal; lia|]. split; [by rewrite Hlen|].
    split; [by constructor|]. split; [by eapply fresh_leaves_trans|lia].
Qed.

Lemma truthy_of_nat non : 0 < non -> nn.truthy (Z.of_nat non) = true.
Proof.
  intros H. unfold nn.truthy. apply negb_true_iff, Z.eqb_neq. lia.
Qed.

Lemma Layer_init_spec k nin non kwargs (h : heap) :
  exists l h',
    nn.Layer_init uniform k nin non kwargs h = Ok ((l, k + non * nin), h')
    /\ length (nn.neurons l) = non
    /\ Forall (fun n => nn.truthy (nn.nonlinear n) = true
                        /\ length (nn.w n) = nin) (nn.neurons l)
    /\ fresh_leaves h (nn.Layer_parameters l) h'
    /\ length (nn.Layer_parameters l) = non * (nin + 1).
Proof.
  destruct (make_neurons_spec nin (Z.of_nat non) non k h)
    as (ns & h' & E & Hlen & Hall & F & L).
  exists (nn.mkLayer ns), h'. unfold nn.Layer_init, bind. rewrite E.
  split; [done|]. split; [done|]. split; [|split; [done|]].
  - cbn [nn.neurons]. rewrite Forall_forall in Hall. apply Forall_forall.
    intros n Hn. destruct (Hall n Hn) as [-> Hw]. split; [|done].
    apply truthy_of_nat. destruct ns; [by apply elem_of_nil in Hn|].
    simpl in Hlen. lia.
  - destruct F as (c & -> & Ep & _). unfold nn.Layer_parameters in *.
    cbn [nn.neurons] in *. rewrite Ep, length_seq.
    rewrite length_app in L. lia.
Qed.

(** X18.  [Layer(nin, non, **kwargs)] makes [non] neurons of [nin] weights each
    and allocates their parameters and nothing else.  Whatever the
    keywords say, every neuron is made with [nonlin = non], which counts
    as true: each one applies [relu]. *)
Theorem layer_init_ignores_keywords k nin non kwargs (h : heap) :
  exists l h',
    nn.Layer_init uniform k nin non kwargs h = Ok ((l, k + non * nin), h')
    /\ nn.Layer_init uniform k nin non None h = Ok ((l, k + non * nin), h')
    /\ length (nn.neurons l) = non
    /\ Forall (fun n => nn.truthy (nn.nonlinear n) = true
                        /\ length (nn.w n) = nin) (nn.neurons l)
    /\ fresh_leaves h (nn.Layer_parameters l) h'
    /\ length (nn.Layer_parameters l) = non * (nin + 1).
Proof.
  destruct (Layer_init_spec k nin non kwargs h)
    as (l & h' & E & Hlen & Hall & F & C).
  exists l, h'. by repeat split.
Qed.

Lemma make_layers_spec nons : forall nin k i0 total (h : heap),
  exists ls k' h',
    nn.make_layers uniform k nin nons i0 total h = Ok ((ls, k'), h')
    /\ map (fun l => length (nn.neurons l)) ls = nons
    /\ Forall (fun l => Forall (fun n => nn.truthy (nn.nonlinear n) = true)
                          (nn.neurons l)) ls
    /\ fresh_leaves h (concat (map nn.Layer_parameters ls)) h'
    /\ length (concat (map nn.Layer_parameters ls)) = parameter_count nin nons.
Proof.
  induction nons as [|non nons IH]; intros nin k i0 total h.
  - exists [], k, h. split; [done|]. split; [done|]. split; [done|].
    split; [apply fresh_leaves_refl|done].
  - destruct (Layer_init_spec k nin non (Some (negb (i0 =? total - 1))) h)
      as (l & h1 & E1 & Hlen & Hall & F1 & C1).
    destruct (IH non (k + non * nin) (S i0) total h1)
      as (ls & k' & h2 & E2 & Hmap & Hnl & F2 & C2).
    exists (l :: ls), k', h2. simpl. unfold bind. rewrite E1. cbn [fst snd].
    rewrite E2. unfold ret. cbn [fst snd]. split; [done|].
    split; [by rewrite Hlen, Hmap|]. split; [|split].
    + constructor; [|done]. eapply Forall_impl; [exact Hall|]. by intros n [? _].
    + by eapply fresh_leaves_trans.
    + rewrite length_app. lia.
Qed.

(** X19.  [MLP(nin, nons)] makes one layer for each size in [nons] and
    allocates the parameters of the network and nothing else:
    [parameters()] lists exactly the new nodes in the order of allocation,
    [non * (nin + 1)] of them for a layer of [non] neurons with [nin]
    inputs.  Every neuron of every layer, the last one too, applies
    [relu]. *)
Theorem mlp_init_allocates k nin nons (h : heap) :
  exists m k' h',
    nn.MLP_init uniform k nin nons h = Ok ((m, k'), h')
    /\ map (fun l => length (nn.neurons l)) (nn.layers m) = nons
    /\ Forall (fun l => Forall (fun n => nn.truthy (nn.nonlinear n) = true)
                          (nn.neurons l)) (nn.layers m)
    /\ fresh_leaves h (nn.MLP_parameters m) h'
    /\ length (nn.MLP_parameters m) = parameter_count nin nons.
Proof.
  destruct (make_layers_spec nons nin k 0 (length nons) h)
    as (ls & k' & h' & E & Hmap & Hnl & F & C).
  exists (nn.mkMLP ls), k', h'. unfold nn.MLP_init, bind. by rewrite E.
Qed.

Lemma MLP_init_inv k nin nons (h h' : heap) m k' :
  nn.MLP_init uniform k nin nons h = Ok ((m, k'), h') ->
  map (fun l => length (nn.neurons l)) (nn.layers m) = nons
  /\ Forall (fun l => Forall (fun n => nn.truthy (nn.nonlinear n) = true)
                        (nn.neurons l)) (nn.layers m)
  /\ fresh_leaves h (nn.MLP_parameters m) h'.
Proof.
  destruct (make_layers_spec nons nin k 0 (length nons) h)
    as (ls & k1 & h1 & E & Hmap & Hnl & F & _).
  unfold nn.MLP_init, bind. rewrite E. by intros [= <- <- <-].
Qed.

End Constructors.

(** ** The calls *)

Lemma node_prefix (h h' : heap) v :
  h `prefix_of` h' -> v < length h -> node h' v = node h v.
Proof. intros [l ->] Hv. by apply node_app_l. Qed.

Lemma operand_in_prefix (h h' : heap) o :
  h `prefix_of` h' -> operand_in h o -> operand_in h' o.
Proof.
  intros Hp. destruct o; simpl; [|done].
  pose proof (prefix_length _ _ Hp). lia.
Qed.

Lemma operand_data_prefix (h h' : heap) o :
  h `prefix_of` h' -> operand_in h o -> operand_data h' o = operand_data h o.
Proof. intros Hp. destruct o; simpl; [|done]. intros Hv. by rewrite (node_prefix h h'). Qed.

Lemma operand_heap_prefix_of (h : heap) o : h `prefix_of` operand_heap h o.
Proof. destruct (operand_heap_prefix h o) as [l ->]. by apply prefix_app_r. Qed.

Section NetworkCalls.
Variable iter_swapped : ident -> ident -> bool.

Lemma weighted_sum_spec wx : forall acc (h : heap),
  acc < length h ->
  Forall (fun p => p.1 < length h /\ operand_in h p.2) wx ->
  exists out h',
    nn.weighted_sum iter_swapped acc wx h = Ok (out, h')
    /\ h `prefix_of` h'
    /\ out < length h'
    /\ data (node h' out)
       = foldl (fun a p => a + data (node h p.1) * operand_data h p.2)%float
           (data (node h acc)) wx.
Proof.
  induction wx as [|[wi xi] wx IH]; intros acc h Hacc Hwx.
  - exists acc, h. by repeat split.
  - apply Forall_cons in Hwx as [[Hwi Hxi] Hwx]. simpl in Hwi, Hxi.
    cbn [nn.weighted_sum]. unfold bind at 1. rewrite mul_eq by done.
    set (h0 := operand_heap h xi).
    set (h1 := h0 ++ [cell iter_swapped (data (node h wi) * operand_data h xi)%float
                        (MulRule wi (operand_node h xi))
                        [wi; operand_node h xi] OpMul]).
    assert (P0 : h `prefix_of` h0) by apply operand_heap_prefix_of.
    assert (P1 : h `prefix_of` h1) by (by apply prefix_app_r).
    pose proof (prefix_length _ _ P0) as L0.
    assert (L1 : length h1 = S (length h0)) by (unfold h1; len).
    unfold bind at 1. rewrite add_eq by (cbn [operand_in]; lia).
    cbn [operand_heap operand_node operand_data].
    set (h2 := h1 ++ _).
    assert (P2 : h `prefix_of` h2) by (by apply prefix_app_r).
    destruct (IH (length h1) h2) as (out & h' & E & P & Hout & Hd).
    { unfold h2. len. }
    { eapply Forall_impl; [exact Hwx|]. intros [w x] [Hw Hx]. simpl in *.
      split; [pose proof (prefix_length _ _ P2); lia|].
      by apply (operand_in_prefix h). }
    exists out, h'. split; [done|]. split; [by etrans|]. split; [done|].
    rewrite Hd. cbn [foldl fst snd].
    assert (Ed : data (node h2 (length h1))
                 = (data (node h acc) + data (node h wi) * operand_data h xi)%float).
    { unfold h2. rewrite node_alloc by done. cbn [cell data].
      rewrite (node_prefix h h1) by done.
      unfold h1. by rewrite node_alloc. }
    rewrite Ed. clear -Hwx P2. revert Hwx.
    generalize (data (node h acc) + data (node h wi) * operand_data h xi)%float.
    induction wx as [|[w x] wx IHwx]; intros a Hwx; [done|].
    apply Forall_cons in Hwx as [[Hw Hx] Hwx]. simpl in Hw, Hx.
    cbn [foldl fst snd].
    rewrite (node_prefix h h2), (operand_data_prefix h h2) by done.
    by apply IHwx.
Qed.

Lemma weighted_sum_total wx : forall acc (h : heap),
  exists r, nn.weighted_sum iter_swapped acc wx h = Ok r.
Proof.
  induction wx as [|[wi xi] wx IH]; intros acc h; [by eexists|].
  cbn [nn.weighted_sum]. unfold bind at 1.
  unfold __mul__ at 1. unfold bind at 1. rewrite as_value_eq.
  unfold bind at 1 2. cbn [get_data]. rewrite alloc_with_rule.
  unfold bind at 1. unfold __add__ at 1. unfold bind at 1 2 3.
  cbn [as_value ret get_data]. rewrite alloc_with_rule. apply IH.
Qed.

(** The only failure of a neuron is [TypeError], raised when it is
    called on a single node. *)
Lemma Neuron_call_outcome n x (h : heap) :
  match x with
  | nn.Seq _ => exists r, nn.Neuron_call iter_swapped n x h = inr r
  | nn.Single _ => nn.Neuron_call iter_swapped n x h = inl nn.TypeError
  end.
Proof.
  destruct x as [xs|v]; [|done]. cbn [nn.Neuron_call]. unfold nn.nn_bind, nn.of_engine.
  destruct (weighted_sum_total (zip (nn.w n) xs) (nn.b n) h) as [[a h1] ->].
  destruct (nn.truthy (nn.nonlinear n)); [|by eexists].
  rewrite relu_eq. by eexists.
Qed.

Lemma Neuron_call_spec n xs (h : heap) :
  nn.b n < length h ->
  Forall (fun wi => wi < length h) (nn.w n) ->
  Forall (operand_in h) xs ->
  exists out h',
    nn.Neuron_call iter_swapped n (nn.Seq xs) h = inr (out, h')
    /\ h `prefix_of` h'
    /\ out < length h'
    /\ data (node h' out) = neuron_value h n xs.
Proof.
  intros Hb Hw Hx.
  destruct (weighted_sum_spec (zip (nn.w n) xs) (nn.b n) h Hb)
    as (a & h1 & E & P & Ha & Hd).
  { apply Forall_forall. intros [wi xi] Hin. simpl. split.
    - rewrite Forall_forall in Hw. by eapply Hw, elem_of_zip_l.
    - rewrite Forall_forall in Hx. by eapply Hx, elem_of_zip_r. }
  cbn [nn.Neuron_call]. unfold nn.nn_bind, nn.of_engine. rewrite E.
  unfold neuron_value. rewrite <- Hd.
  destruct (nn.truthy (nn.nonlinear n)).
  - rewrite relu_eq. do 2 eexists. split; [done|].
    split; [by apply prefix_app_r|]. split; [len|]. by rewrite node_alloc.
  - by exists a, h1.
Qed.

(** X20.  A neuron called on a list never fails.  It returns a node that holds
    the bias plus the products of weights and inputs, added up from the
    left, clamped by [relu] when the neuron is nonlinear; every node that
    existed reads as before. *)
Theorem neuron_call_value n xs (h : heap) :
  nn.b n < length h ->
  Forall (fun wi => wi < length h) (nn.w n) ->
  Forall (operand_in h) xs ->
  exists out h',
    nn.Neuron_call iter_swapped n (nn.Seq xs) h = inr (out, h')
    /\ out < length h'
    /\ data (node h' out) = neuron_value h n xs
    /\ forall v, v < length h -> node h' v = node h v.
Proof.
  intros Hb Hw Hx.
  destruct (Neuron_call_spec n xs h Hb Hw Hx) as (out & h' & E & P & Ho & Hd).
  exists out, h'. split; [done|]. split; [done|]. split; [done|].
  intros v Hv. by apply node_prefix.
Qed.

(** X21.  A neuron pairs weights and inputs by position and stops at the
    shorter list without complaint: inputs beyond the weights are ignored,
    and so are weights beyond the inputs.  Called on no input at all, a
    linear neuron returns its bias node itself and allocates nothing.  A
    single node in place of the list raises [TypeError]. *)
Theorem neuron_call_pairs_by_position n xs v (h : heap) :
  nn.Neuron_call iter_swapped n (nn.Seq (take (length (nn.w n)) xs)) h
  = nn.Neuron_call iter_swapped n (nn.Seq xs) h
  /\ nn.Neuron_call iter_swapped
       (nn.mkNeuron (take (length xs) (nn.w n)) (nn.b n) (nn.nonlinear n))
       (nn.Seq xs) h
     = nn.Neuron_call iter_swapped n (nn.Seq xs) h
  /\ (nn.nonlinear n = 0%Z ->
      nn.Neuron_call iter_swapped n (nn.Seq []) h = inr (nn.b n, h))
  /\ nn.Neuron_call iter_swapped n (nn.Single v) h = inl nn.TypeError.
Proof.
  split; [|split; [|split]].
  - unfold nn.Neuron_call. by rewrite zip_with_take_r.
  - unfold nn.Neuron_call. cbn [nn.w nn.b nn.nonlinear].
    by rewrite zip_with_take_l.
  - intros Hn. unfold nn.Neuron_call. rewrite zip_with_nil_r.
    unfold nn.nn_bind, nn.of_engine. cbn [nn.weighted_sum ret].
    by rewrite Hn.
  - done.
Qed.

Lemma call_neurons_outcome ns x : forall (h : heap),
  (exists outs h', nn.call_neurons iter_swapped ns x h = inr (outs, h')
                   /\ length outs = length ns)
  \/ nn.call_neurons iter_swapped ns x h = inl nn.TypeError.
Proof.
  induction ns as [|n ns IH]; intros h; [left; by exists [], h|].
  cbn [nn.call_neurons]. unfold nn.nn_bind.
  pose proof (Neuron_call_outcome n x h) as Hn.
  destruct x as [xs|v]; [|right; by rewrite Hn].
  destruct Hn as [[v h1] Hn]. rewrite Hn.
  destruct (IH h1) as [(outs & h2 & E & Hlen)|E]; rewrite E; [left|by right].
  exists (v :: outs), h2. split; [done|]. simpl. by rewrite Hlen.
Qed.

(** A layer fails with [TypeError] or returns; a layer of one neuron
    returns the node, not a list of one node. *)
Lemma Layer_call_outcome l x (h : heap) :
  (exists res h', nn.Layer_call iter_swapped l x h = inr (res, h')
     /\ (length (nn.neurons l) = 1 -> exists v, res = nn.Single v))
  \/ nn.Layer_call iter_swapped l x h = inl nn.TypeError.
Proof.
  unfold nn.Layer_call, nn.nn_bind.
  destruct (call_neurons_outcome (nn.neurons l) x h)
    as [(outs & h' & -> & Hlen)| ->]; [left|by right].
  do 2 eexists. split; [done|]. intros H1. rewrite H1 in Hlen.
  destruct outs as [|v [|? ?]]; try done. by exists v.
Qed.

Lemma Layer_call_single l v (h : heap) :
  nn.neurons l <> [] ->
  nn.Layer_call iter_swapped l (nn.Single v) h = inl nn.TypeError.
Proof.
  intros Hne. unfold nn.Layer_call, nn.nn_bind.
  destruct (nn.neurons l) as [|n ns]; [done|]. done.
Qed.

Lemma call_layers_type_error lpre l1 l2 lpost : forall x (h : heap),
  length (nn.neurons l1) = 1 -> nn.neurons l2 <> [] ->
  nn.call_layers iter_swapped (lpre ++ l1 :: l2 :: lpost) x h
  = inl nn.TypeError.
Proof.
  induction lpre as [|l0 lpre IH]; intros x h H1 H2.
  - cbn [app nn.call_layers]. unfold nn.nn_bind at 1.
    destruct (Layer_call_outcome l1 x h) as [(res & h1 & -> & Hs)| ->]; [|done].
    destruct (Hs H1) as [v ->]. cbn [nn.call_layers]. unfold nn.nn_bind.
    by rewrite Layer_call_single.
  - cbn [app nn.call_layers]. unfold nn.nn_bind at 1.
    destruct (Layer_call_outcome l0 x h) as [(res & h1 & -> & _)| ->]; [|done].
    by apply IH.
Qed.

End NetworkCalls.

Section NetworkTheorems.
Variable uniform : nat -> float.
Variable iter_swapped : ident -> ident -> bool.

(** X23.  A network with a layer of one neuron that is not the last cannot be
    called: that layer hands on its node instead of a list, and the
    neurons of the next layer raise [TypeError] on it. *)
Theorem mlp_single_neuron_layer_raises k nin pre non post (h0 h : heap) m k' h1 x :
  0 < non ->
  nn.MLP_init uniform k nin (pre ++ 1 :: non :: post) h0 = Ok ((m, k'), h1) ->
  nn.MLP_call iter_swapped m x h = inl nn.TypeError.
Proof.
  intros Hnon Hinit.
  destruct (MLP_init_inv _ _ _ _ _ _ _ _ Hinit) as (Hmap & _).
  unfold nn.MLP_call. revert Hmap. generalize (nn.layers m).
  intros ls Hmap.
  apply fmap_app_inv in Hmap as (lpre & ls1 & _ & Hmap & ->).
  destruct ls1 as [|l1 [|l2 lpost]]; try done.
  injection Hmap as H1 H2 _.
  apply call_layers_type_error; [done|].
  intros Hnil. rewrite Hnil in H2. simpl in H2. lia.
Qed.

End NetworkTheorems.

(** ** The values a network computes *)

Lemma Forall_concat_map {A B} (P : B -> Prop) (f : A -> list B) (l : list A) :
  Forall P (concat (map f l)) <-> Forall (fun x => Forall P (f x)) l.
Proof.
  induction l as [|x l IH]; simpl.
  - split; constructor.
  - rewrite Forall_app, Forall_cons, IH. done.
Qed.

Lemma neuron_parameters_in (h : heap) n :
  Forall (fun p => p < length h) (nn.Neuron_parameters n) ->
  nn.b n < length h /\ Forall (fun wi => wi < length h) (nn.w n).
Proof.
  unfold nn.Neuron_parameters. rewrite Forall_app, Forall_singleton. tauto.
Qed.

Lemma neuron_value_prefix (h h' : heap) n xs :
  h `prefix_of` h' ->
  Forall (fun p => p < length h) (nn.Neuron_parameters n) ->
  Forall (operand_in h) xs ->
  neuron_value h' n xs = neuron_value h n xs.
Proof.
  intros P Hn Hx. apply neuron_parameters_in in Hn as [Hb Hw].
  unfold neuron_value. rewrite (node_prefix h h') by done.
  assert (E : forall a,
    foldl (fun acc wx => acc + data (node h' wx.1) * operand_data h' wx.2)%float
      a (zip (nn.w n) xs)
    = foldl (fun acc wx => acc + data (node h wx.1) * operand_data h wx.2)%float
      a (zip (nn.w n) xs)).
  { assert (Hz : Forall (fun p => p.1 < length h /\ operand_in h p.2)
                   (zip (nn.w n) xs)).
    { apply Forall_forall. intros [wi xi] Hin. simpl. split.
      - rewrite Forall_forall in Hw. by eapply Hw, elem_of_zip_l.
      - rewrite Forall_forall in Hx. by eapply Hx, elem_of_zip_r. }
    induction Hz as [|[wi xi] wx [H1 H2] _ IH]; intros a; [done|].
    simpl in H1, H2. cbn [foldl fst snd].
    by rewrite (node_prefix h h'), (operand_data_prefix h h'), IH. }
  by rewrite E.
Qed.

Lemma neuron_value_clamped (h : heap) n xs :
  nn.truthy (nn.nonlinear n) = true ->
  (neuron_value h n xs <? 0)%float = false.
Proof.
  intros Ht. unfold neuron_value. rewrite Ht.
  match goal with |- context [foldl ?f ?a ?l] => generalize (foldl f a l) end.
  intros s. by destruct (s <? 0)%float eqn:E.
Qed.

Section NetworkValues.
Variable uniform : nat -> float.
Variable iter_swapped : ident -> ident -> bool.

Lemma call_neurons_spec ns : forall (h : heap) xs,
  Forall (fun n => Forall (fun p => p < length h) (nn.Neuron_parameters n)) ns ->
  Forall (operand_in h) xs ->
  exists outs h',
    nn.call_neurons iter_swapped ns (nn.Seq xs) h = inr (outs, h')
    /\ h `prefix_of` h'
    /\ Forall2 (fun n v => v < length h'
                           /\ data (node h' v) = neuron_value h n xs) ns outs.
Proof.
  induction ns as [|n ns IH]; intros h xs Hns Hxs.
  - exists [], h. split; [done|]. split; [done|]. constructor.
  - apply Forall_cons in Hns as [Hn Hns].
    destruct (neuron_parameters_in h n Hn) as [Hb Hw].
    destruct (Neuron_call_spec iter_swapped n xs h Hb Hw Hxs)
      as (v & h1 & E1 & P1 & Hv & Hd).
    pose proof (prefix_length _ _ P1) as L1.
    destruct (IH h1 xs) as (outs & h2 & E2 & P2 & Hall).
    { eapply Forall_impl; [exact Hns|]. intros m Hm.
      eapply Forall_impl; [exact Hm|]. simpl. lia. }
    { eapply Forall_impl; [exact Hxs|]. intros o. by apply operand_in_prefix. }
    pose proof (prefix_length _ _ P2) as L2.
    exists (v :: outs), h2. cbn [nn.call_neurons]. unfold nn.nn_bind.
    rewrite E1, E2. split; [done|]. split; [by etrans|].
    constructor.
    + split; [lia|]. by rewrite (node_prefix h1 h2).
    + clear -Hall Hns Hxs P1.
      induction Hall as [|m o ms os [Ho Hd] _ IH']; [constructor|].
      apply Forall_cons in Hns as [Hm Hns]. constructor; [|by apply IH'].
      split; [done|]. by rewrite Hd, (neuron_value_prefix h h1).
Qed.

(** X22.  A layer called on a list returns one node for each neuron, each
    holding the value of its neuron on the inputs: the node itself when
    there is one neuron, the list of nodes otherwise. *)
Theorem layer_call_values l xs (h : heap) :
  Forall (fun p => p < length h) (nn.Layer_parameters l) ->
  Forall (operand_in h) xs ->
  exists outs h',
    nn.Layer_call iter_swapped l (nn.Seq xs) h
    = inr (match outs with
           | [v] => nn.Single v
           | _ => nn.Seq (map Node outs)
           end, h')
    /\ h `prefix_of` h'
    /\ Forall2 (fun n v => v < length h'
                           /\ data (node h' v) = neuron_value h n xs)
         (nn.neurons l) outs.
Proof.
  intros Hl Hxs. unfold nn.Layer_parameters in Hl.
  apply Forall_concat_map in Hl.
  destruct (call_neurons_spec (nn.neurons l) h xs Hl Hxs)
    as (outs & h' & E & P & Hall).
  exists outs, h'. unfold nn.Layer_call, nn.nn_bind. by rewrite E.
Qed.

Lemma result_nodes_of_outs outs :
  result_nodes (match outs with
                | [v] => nn.Single v
                | _ => nn.Seq (map Node outs)
                end) = outs.
Proof.
  assert (E : forall l, concat (map (fun o => match o with
                                             | Node v => [v]
                                             | Raw _ => []
                                             end) (map Node l)) = l).
  { induction l as [|v l IH]; [done|]. simpl. by rewrite IH. }
  destruct outs as [|v [|v' outs]]; [done|done|]. apply E.
Qed.

Lemma nodes_operand_in (h : heap) outs :
  Forall (fun v => v < length h) outs -> Forall (operand_in h) (map Node outs).
Proof. induction 1; by constructor. Qed.

Lemma layer_call_clamps l x (h : heap) res h' :
  Forall (fun p => p < length h) (nn.Layer_parameters l) ->
  Forall (fun n => nn.truthy (nn.nonlinear n) = true) (nn.neurons l) ->
  arg_in h x ->
  nn.Layer_call iter_swapped l x h = inr (res, h') ->
  h `prefix_of` h'
  /\ arg_in h' res
  /\ forall v, v ∈ result_nodes res -> (data (node h' v) <? 0)%float = false.
Proof.
  intros Hl Ht Hx H. destruct x as [xs|v].
  - unfold nn.Layer_parameters in Hl. apply Forall_concat_map in Hl.
    destruct (call_neurons_spec (nn.neurons l) h xs Hl Hx)
      as (outs & h1 & E & P & Hall).
    unfold nn.Layer_call, nn.nn_bind in H. rewrite E in H.
    injection H as <- <-. split; [done|].
    assert (Hout : Forall (fun v => v < length h1
                             /\ (data (node h1 v) <? 0)%float = false) outs).
    { clear E Hl. induction Hall as [|n v ns vs [Hv Hd] _ IH]; [constructor|].
      apply Forall_cons in Ht as [Htn Ht]. constructor; [|by apply IH].
      split; [done|]. rewrite Hd. by apply neuron_value_clamped. }
    split.
    + assert (Hlt : Forall (fun v => v < length h1) outs).
      { eapply Forall_impl; [exact Hout|]. by intros ? [? _]. }
      destruct outs as [|v [|v' outs]]; cbn [arg_in].
      * constructor.
      * rewrite Forall_forall in Hlt. apply Hlt. by left.
      * by apply nodes_operand_in.
    + rewrite result_nodes_of_outs. intros v Hv.
      rewrite Forall_forall in Hout. by apply Hout.
  - unfold nn.Layer_call, nn.nn_bind in H.
    destruct (nn.neurons l) as [|n ns]; [|done].
    injection H as <- <-. split; [done|]. split; [constructor|].
    intros u Hu. by apply elem_of_nil in Hu.
Qed.

Lemma call_layers_clamps ls : forall x (h : heap) res h',
  ls <> [] ->
  Forall (fun l => Forall (fun p => p < length h) (nn.Layer_parameters l)) ls ->
  Forall (fun l => Forall (fun n => nn.truthy (nn.nonlinear n) = true)
                     (nn.neurons l)) ls ->
  arg_in h x ->
  nn.call_layers iter_swapped ls x h = inr (res, h') ->
  forall v, v ∈ result_nodes res -> (data (node h' v) <? 0)%float = false.
Proof.
  induction ls as [|l ls IH]; intros x h res h' Hne Hl Ht Hx H; [done|].
  apply Forall_cons in Hl as [Hl Hls]. apply Forall_cons in Ht as [Ht Hts].
  cbn [nn.call_layers] in H. unfold nn.nn_bind in H.
  destruct (nn.Layer_call iter_swapped l x h) as [e|[x1 h1]] eqn:E; [done|].
  destruct (layer_call_clamps l x h x1 h1 Hl Ht Hx E) as (P & Hx1 & Hc).
  destruct ls as [|l2 ls].
  - injection H as <- <-. exact Hc.
  - eapply (IH x1 h1); try done.
    eapply Forall_impl; [exact Hls|]. intros l' Hl'.
    eapply Forall_impl; [exact Hl'|]. simpl.
    pose proof (prefix_length _ _ P). lia.
Qed.

(** X24.  The nodes that a network returns never hold a negative number: the
    keyword [nonlinear] that [MLP] passes is lost in [Layer], so the last
    layer applies [relu] like every other. *)
Theorem mlp_outputs_never_negative k nin nons (h0 h1 h : heap) m k' xs res h' :
  nons <> [] ->
  nn.MLP_init uniform k nin nons h0 = Ok ((m, k'), h1) ->
  h1 `prefix_of` h ->
  Forall (operand_in h) xs ->
  nn.MLP_call iter_swapped m (nn.Seq xs) h = inr (res, h') ->
  forall v, v ∈ result_nodes res -> (data (node h' v) <? 0)%float = false.
Proof.
  intros Hne Hinit P Hxs Hcall.
  destruct (MLP_init_inv _ _ _ _ _ _ _ _ Hinit) as (Hmap & Ht & F).
  unfold nn.MLP_call in Hcall.
  apply (call_layers_clamps (nn.layers m) (nn.Seq xs) h res h'); try done.
  - intros Hnil. rewrite Hnil in Hmap. by destruct nons.
  - destruct F as (c & -> & Ep & _). unfold nn.MLP_parameters in Ep.
    apply Forall_concat_map. rewrite Ep. apply Forall_forall.
    intros p Hp. apply elem_of_seq in Hp.
    pose proof (prefix_length _ _ P) as L. rewrite length_app in L. lia.
Qed.

End NetworkValues.

(** * The theorems at sample inputs *)

Lemma sample_graph_built : built sample_pow in_order sample_graph.
Proof.
  eapply (built_call _ _ _ (CallAdd 0 (Node 1)));
    [eapply (built_call _ _ _ (CallValue 0));
       [eapply (built_call _ _ [] (CallValue 2));
          [apply built_empty | exact I | reflexivity]
       | exact I | reflexivity]
    | vm_compute; lia | reflexivity].
Qed.

Lemma sample_graph_length : length sample_graph = 3.
Proof. reflexivity. Qed.



Lemma calls_only_append_witness :
  built sample_pow in_order sample_graph
  /\ args_in sample_graph (CallNeg 2)
  /\ exists out h',
      perform sample_pow in_order (CallNeg 2) sample_graph = Ok (out, h')
      /\ length sample_graph <= out /\ length h' = S out
      /\ forall v, v < length sample_graph ->
           node h' v = node sample_graph v.
Proof.
  assert (A : args_in sample_graph (CallNeg 2)) by (vm_compute; lia).
  split; [exact sample_graph_built |]. split; [exact A |].
  do 2 eexists. split; [vm_compute; reflexivity |].
  eapply (calls_only_append sample_pow in_order sample_graph (CallNeg 2));
    [exact sample_graph_built | exact A | vm_compute; reflexivity].
Defined.





Lemma sums_and_products_commute_witness :
  0 < length sample_graph /\ 1 < length sample_graph
  /\ value_of (__add__ in_order 0 (Node 1) sample_graph)
     = value_of (__add__ in_order 1 (Node 0) sample_graph)
  /\ value_of (__mul__ in_order 0 (Node 1) sample_graph)
     = value_of (__mul__ in_order 1 (Node 0) sample_graph).
Proof.
  assert (A : 0 < length sample_graph) by (vm_compute; lia).
  assert (B : 1 < length sample_graph) by (vm_compute; lia).
  split; [exact A |]. split; [exact B |].
  exact (sums_and_products_commute in_order sample_graph 0 1 A B).
Defined.

Lemma negation_and_subtraction_witness :
  0 < length sample_graph /\ operand_in sample_graph (Raw 3)
  /\ value_of (__neg__ in_order 0 sample_graph)
     = Ok (- data (node sample_graph 0))%float
  /\ value_of ((n <- __neg__ in_order 0 ;; __neg__ in_order n) sample_graph)
     = Ok (data (node sample_graph 0))
  /\ value_of (__sub__ in_order 0 (Raw 3) sample_graph)
     = Ok (data (node sample_graph 0) - operand_data sample_graph (Raw 3))%float
  /\ value_of (__rsub__ in_order 0 5 sample_graph)
     = Ok (5 - data (node sample_graph 0))%float.
Proof.
  assert (A : 0 < length sample_graph) by (vm_compute; lia).
  split; [exact A |]. split; [exact I |].
  exact (negation_and_subtraction in_order sample_graph 0 (Raw 3) 5 A I).
Defined.

Lemma reflected_forms_agree_witness :
  0 < length sample_graph
  /\ value_of (__radd__ in_order 0 5 sample_graph)
     = value_of ((v <- leaf 5 ;; __add__ in_order v (Node 0)) sample_graph)
  /\ value_of (__rmul__ in_order 0 5 sample_graph)
     = value_of ((v <- leaf 5 ;; __mul__ in_order v (Node 0)) sample_graph)
  /\ value_of (__rsub__ in_order 0 5 sample_graph)
     = value_of ((v <- leaf 5 ;; __sub__ in_order v (Node 0)) sample_graph)
  /\ value_of (__rtruediv__ sample_pow in_order 0 5 sample_graph)
     = value_of ((v <- leaf 5 ;;
                  __truediv__ sample_pow in_order v (Node 0)) sample_graph).
Proof.
  assert (A : 0 < length sample_graph) by (vm_compute; lia).
  split; [exact A |].
  exact (reflected_forms_agree sample_pow in_order sample_graph 0 5 A).
Defined.

Lemma add_closure_accumulates_witness :
  0 < length sample_graph /\ 1 < length sample_graph
  /\ exists out h1,
      __add__ in_order 0 (Node 1) sample_graph = Ok (out, h1)
      /\ grad_after 0 ((set_grad out 3 ;;; call_backward sample_pow out) h1)
         = Ok (grad (node sample_graph 0) + 3)%float
      /\ grad_after 1 ((set_grad out 3 ;;; call_backward sample_pow out) h1)
         = Ok (grad (node sample_graph 1) + 3)%float.
Proof.
  assert (A : 0 < length sample_graph) by (vm_compute; lia).
  assert (B : 1 < length sample_graph) by (vm_compute; lia).
  split; [exact A |]. split; [exact B |].
  exact (add_closure_accumulates sample_pow in_order sample_graph 0 1 3 A B).
Defined.

Lemma mul_closure_accumulates_witness :
  0 < length sample_graph
  /\ exists out h1,
      __mul__ in_order 0 (Node 0) sample_graph = Ok (out, h1)
      /\ grad_after 0 ((set_grad out 3 ;;; call_backward sample_pow out) h1)
         = Ok (grad (node sample_graph 0)
               + data (node sample_graph 0) * 3
               + data (node sample_graph 0) * 3)%float.
Proof.
  assert (A : 0 < length sample_graph) by (vm_compute; lia).
  split; [exact A |].
  destruct (mul_closure_accumulates sample_pow in_order sample_graph 0 0 3
              A A) as (out & h1 & E & G & _).
  exists out, h1. split; [exact E | exact G].
Defined.

Lemma relu_clamps_and_gates_witness :
  0 < length sample_graph
  /\ exists out h1,
      relu in_order 0 sample_graph = Ok (out, h1)
      /\ (data (node h1 out) <? 0)%float = false
      /\ value_of (relu in_order out h1) = Ok (data (node h1 out))
      /\ grad_after 0 ((set_grad out 3 ;;; call_backward sample_pow out) h1)
         = Ok (if 0 <? data (node sample_graph 0)
               then grad (node sample_graph 0) + 3
               else grad (node sample_graph 0) + 0 * 3)%float.
Proof.
  assert (A : 0 < length sample_graph) by (vm_compute; lia).
  split; [exact A |].
  exact (relu_clamps_and_gates sample_pow in_order sample_graph 0 3 A).
Defined.

Lemma leaky_relu_positive_and_unit_slope_witness :
  0 < length sample_graph
  /\ value_of (leaky_relu in_order 0 0.5 sample_graph)
     = value_of (relu in_order 0 sample_graph)
  /\ exists out h1,
      leaky_relu in_order 0 1 sample_graph = Ok (out, h1)
      /\ data (node h1 out) = data (node sample_graph 0)
      /\ grad_after 0 ((set_grad out 3 ;;; call_backward sample_pow out) h1)
         = Ok (grad (node sample_graph 0) + 3)%float.
Proof.
  assert (A : 0 < length sample_graph) by (vm_compute; lia).
  split; [exact A |].
  destruct (leaky_relu_positive_and_unit_slope sample_pow in_order
              sample_graph 0 0.5 3 A) as [P U].
  split; [apply P; reflexivity | exact U].
Defined.

Lemma neuron_call_value_witness :
  nn.b sample_neuron < length sample_graph
  /\ Forall (fun wi => wi < length sample_graph) (nn.w sample_neuron)
  /\ Forall (operand_in sample_graph) [Raw 3]
  /\ exists out h',
      nn.Neuron_call in_order sample_neuron (nn.Seq [Raw 3]) sample_graph
      = inr (out, h')
      /\ out < length h'
      /\ data (node h' out) = neuron_value sample_graph sample_neuron [Raw 3]
      /\ forall v, v < length sample_graph ->
           node h' v = node sample_graph v.
Proof.
  assert (B : nn.b sample_neuron < length sample_graph)
    by (vm_compute; lia).
  assert (W : Forall (fun wi => wi < length sample_graph)
                (nn.w sample_neuron))
    by (constructor; [vm_compute; lia | constructor]).
  assert (X : Forall (operand_in sample_graph) [Raw 3])
    by (constructor; [exact I | constructor]).
  split; [exact B |]. split; [exact W |]. split; [exact X |].
  exact (neuron_call_value in_order sample_neuron [Raw 3] sample_graph
           B W X).
Defined.

Lemma layer_call_values_witness :
  Forall (fun p => p < length sample_graph) (nn.Layer_parameters sample_layer)
  /\ Forall (operand_in sample_graph) [Raw 3]
  /\ exists outs h',
      nn.Layer_call in_order sample_layer (nn.Seq [Raw 3]) sample_graph
      = inr (match outs with
             | [v] => nn.Single v
             | _ => nn.Seq (map Node outs)
             end, h')
      /\ sample_graph `prefix_of` h'
      /\ Forall2 (fun n v => v < length h'
                             /\ data (node h' v)
                                = neuron_value sample_graph n [Raw 3])
           (nn.neurons sample_layer) outs.
Proof.
  assert (P : Forall (fun p => p < length sample_graph)
                (nn.Layer_parameters sample_layer))
    by (repeat (constructor; [vm_compute; lia |]); constructor).
  assert (X : Forall (operand_in sample_graph) [Raw 3])
    by (constructor; [exact I | constructor]).
  split; [exact P |]. split; [exact X |].
  exact (layer_call_values in_order sample_layer [Raw 3] sample_graph P X).
Defined.

Lemma mlp_single_neuron_layer_raises_witness :
  0 < 2
  /\ exists m k' h1,
      nn.MLP_init sample_draws 0 1 [1; 2] [] = Ok ((m, k'), h1)
      /\ nn.MLP_call in_order m (nn.Seq [Raw 3]) h1 = inl nn.TypeError.
Proof.
  split; [lia |].
  do 3 eexists. split; [vm_compute; reflexivity |].
  eapply (mlp_single_neuron_layer_raises sample_draws in_order 0 1 [] 2 []
            []); [lia | vm_compute; reflexivity].
Defined.

Lemma mlp_outputs_never_negative_witness :
  [2; 1] <> []
  /\ exists m k' h1 res h',
      nn.MLP_init sample_draws 0 1 [2; 1] [] = Ok ((m, k'), h1)
      /\ h1 `prefix_of` h1
      /\ Forall (operand_in h1) [Raw 3]
      /\ nn.MLP_call in_order m (nn.Seq [Raw 3]) h1 = inr (res, h')
      /\ forall v, v ∈ result_nodes res ->
           (data (node h' v) <? 0)%float = false.
Proof.
  split; [discriminate |].
  do 5 eexists. split; [vm_compute; reflexivity |].
  split; [reflexivity |].
  split; [constructor; [exact I | constructor] |].
  split; [vm_compute; reflexivity |].
  eapply (mlp_outputs_never_negative sample_draws in_order 0 1 [2; 1] []
            _ _ _ _ [Raw 3]);
    [discriminate | vm_compute; reflexivity | reflexivity
    | constructor; [exact I | constructor] | vm_compute; reflexivity].
Defined.
